(** * code2md: the file-selection pipeline of [main.py]

    A shallow embedding of the selection core of code2md: the exclusion
    matcher ([should_exclude]), the operator/value parser
    ([parse_operator_value]), the filter chain and directory walk
    ([process_directory]) and the ordering key ([get_sort_key]).

    Python strings are sequences of Unicode code points; they are modelled
    as lists of code points.  Paths use the POSIX separator, so
    [replace(os.sep, '/')] is the identity and [os.path.normcase] as well. *)

From Stdlib Require Import List NArith ZArith Bool Lia Ascii String.
From Stdlib Require Import Sorted Permutation.
Import ListNotations.

Set Implicit Arguments.
Set Warnings "-register-all".

Local Open Scope bool_scope.
Local Open Scope list_scope.

(** ** Strings *)

Definition char := N.
Definition str := list char.

Definition ch (a : ascii) : char := N_of_ascii a.
Definition lit (s : string) : str := map ch (list_ascii_of_string s).

Definition SLASH : char := 47%N.
Definition STAR : char := 42%N.
Definition QMARK : char := 63%N.
Definition LBRACK : char := 91%N.
Definition RBRACK : char := 93%N.
Definition BANG : char := 33%N.
Definition HYPHEN : char := 45%N.
Definition DOT : char := 46%N.
Definition NEWLINE : char := 10%N.

Fixpoint str_eqb (a b : str) : bool :=
  match a, b with
  | [], [] => true
  | x :: a', y :: b' => N.eqb x y && str_eqb a' b'
  | _, _ => false
  end.

(** [s.startswith(prefix)] *)
Fixpoint startswith (prefix s : str) : bool :=
  match prefix, s with
  | [], _ => true
  | x :: p', y :: s' => N.eqb x y && startswith p' s'
  | _ :: _, [] => false
  end.

(** [s.endswith(suffix)] *)
Definition endswith (suffix s : str) : bool :=
  startswith (rev suffix) (rev s).

(** [s.lstrip(c)] for a one-character strip set: every leading [c] goes. *)
Fixpoint lstrip (c : char) (s : str) : str :=
  match s with
  | x :: s' => if N.eqb x c then lstrip c s' else s
  | [] => []
  end.

(** [s.rstrip(c)] *)
Definition rstrip (c : char) (s : str) : str :=
  rev (lstrip c (rev s)).

(** [c in s] for a one-character [c] *)
Definition contains (c : char) (s : str) : bool :=
  existsb (N.eqb c) s.

(** [str.lower] and [str.upper] on the ASCII letters; other code points
    are left as they are. *)
Definition lower_char (c : char) : char :=
  if (N.leb 65 c && N.leb c 90)%bool then (c + 32)%N else c.
Definition upper_char (c : char) : char :=
  if (N.leb 97 c && N.leb c 122)%bool then (c - 32)%N else c.
Definition lower (s : str) : str := map lower_char s.
Definition upper (s : str) : str := map upper_char s.

(** [sep.join(parts)] *)
Fixpoint join (sep : str) (parts : list str) : str :=
  match parts with
  | [] => []
  | [p] => p
  | p :: rest => p ++ sep ++ join sep rest
  end.

(** [s.split(c)] for a one-character separator: always at least one part. *)
Fixpoint split (c : char) (s : str) : list str :=
  match s with
  | [] => [[]]
  | x :: s' =>
      if N.eqb x c then [] :: split c s'
      else match split c s' with
           | p :: ps => (x :: p) :: ps
           | [] => [[x]]
           end
  end.

(** ** [fnmatch.fnmatch]

    The standard library translates a shell pattern to a regular expression
    and matches the whole name against it.  The translation is followed
    token by token: [*] any run of characters (the separator included),
    [?] any one character, [[...]] a bracket expression when a closing
    bracket exists and a literal bracket otherwise, anything else itself. *)

Inductive glob_tok :=
| GStar
| GAny
| GLit (c : char)
| GSet (chunks : list str).

(** Index of the first closing bracket of [s]. *)
Fixpoint find_close (s : str) : option nat :=
  match s with
  | [] => None
  | c :: s' => if N.eqb c RBRACK then Some O else option_map S (find_close s')
  end.

(** The scan for the end of a bracket expression: [rest] is the pattern
    after the opening bracket; a leading [!] and then a leading closing
    bracket are stepped over.  The result is [j - i], the length of
    [stuff = pat[i:j]]. *)
Definition bracket_end (rest : str) : option nat :=
  let skip1 := match rest with
               | c :: _ => if N.eqb c BANG then 1 else 0
               | [] => 0
               end in
  let r1 := skipn skip1 rest in
  let skip2 := match r1 with
               | c :: _ => if N.eqb c RBRACK then 1 else 0
               | [] => 0
               end in
  option_map (fun k => skip1 + skip2 + k) (find_close (skipn skip2 r1)).

(** The split of [stuff] at the hyphens that denote ranges.  [skip] counts
    the characters that cannot be a range hyphen yet: the first of the
    expression (two after a leading [!]) and the two after a range hyphen
    ([k = k+3]).  A hyphen that ends the expression stays in its chunk. *)
Fixpoint split_chunks (skip : nat) (cur : str) (s : str) : list str :=
  match s with
  | [] => [cur]
  | c :: rest =>
      match skip with
      | S k => split_chunks k (cur ++ [c]) rest
      | O =>
          match rest with
          | _ :: _ =>
              if N.eqb c HYPHEN then cur :: split_chunks 2 [] rest
              else split_chunks 0 (cur ++ [c]) rest
          | [] => [cur ++ [c]]
          end
      end
  end.

Definition chunks_of (stuff : str) : list str :=
  match stuff with
  | c :: _ => split_chunks (if N.eqb c BANG then 2 else 1) [] stuff
  | [] => [[]]
  end.

(** Removal of the empty ranges, from the last pair of chunks to the first:
    a range whose lower end is above its upper end loses both ends and its
    two chunks are glued. *)
Fixpoint merge_chunks (chunks : list str) : list str :=
  match chunks with
  | [] => []
  | c :: cs =>
      match merge_chunks cs with
      | [] => [c]
      | d :: ds =>
          if N.ltb (hd 0%N d) (last c 0%N)
          then (removelast c ++ tl d) :: ds
          else c :: d :: ds
      end
  end.

(** Membership in the set the chunks denote: every character of a chunk,
    and every character between the last one of a chunk and the first one
    of the next. *)
Fixpoint set_member (chunks : list str) (c : char) : bool :=
  match chunks with
  | [] => false
  | k :: rest =>
      existsb (N.eqb c) k
      || match rest with
         | d :: _ =>
             match k with
             | [] => N.eqb c HYPHEN
             | _ :: _ => N.leb (last k 0%N) c && N.leb c (hd 0%N d)
             end
         | [] => false
         end
      || set_member rest c
  end.

(** A set whose text starts with [!] is complemented. *)
Definition in_set (chunks : list str) (c : char) : bool :=
  match chunks with
  | (x :: k) :: rest =>
      if N.eqb x BANG then negb (set_member (k :: rest) c)
      else set_member chunks c
  | _ => set_member chunks c
  end.

(** Consecutive stars are compressed into one. *)
Definition add_star (ts : list glob_tok) : list glob_tok :=
  match ts with
  | GStar :: _ => ts
  | _ => GStar :: ts
  end.

(** [skip] is the number of pattern characters already consumed by a
    bracket expression ([i = j+1]). *)
Fixpoint translate_from (skip : nat) (pat : str) : list glob_tok :=
  match pat with
  | [] => []
  | c :: rest =>
      match skip with
      | S k => translate_from k rest
      | O =>
          if N.eqb c STAR then add_star (translate_from 0 rest)
          else if N.eqb c QMARK then GAny :: translate_from 0 rest
          else if N.eqb c LBRACK then
            match bracket_end rest with
            | None => GLit c :: translate_from 0 rest
            | Some j =>
                GSet (merge_chunks (chunks_of (firstn j rest)))
                  :: translate_from (S j) rest
            end
          else GLit c :: translate_from 0 rest
      end
  end.

Definition translate (pat : str) : list glob_tok := translate_from 0 pat.

(** The whole of [s] against the tokens ([re.match] with a final [\Z]). *)
Fixpoint glob_match (ts : list glob_tok) (s : str) {struct ts} : bool :=
  match ts with
  | [] => match s with [] => true | _ :: _ => false end
  | GStar :: ts' =>
      (fix star (s : str) : bool :=
         glob_match ts' s
         || match s with
            | [] => false
            | _ :: s' => star s'
            end) s
  | GAny :: ts' =>
      match s with
      | _ :: s' => glob_match ts' s'
      | [] => false
      end
  | GLit c :: ts' =>
      match s with
      | x :: s' => N.eqb x c && glob_match ts' s'
      | [] => false
      end
  | GSet chunks :: ts' =>
      match s with
      | x :: s' => in_set chunks x && glob_match ts' s'
      | [] => false
      end
  end.

Definition fnmatch (name pat : str) : bool :=
  glob_match (translate pat) name.

(** ** [should_exclude]

    [rel_path] is [os.path.relpath(path, root_dir)] and [is_dir] is
    [os.path.isdir(path)]; both are read from the file system and are
    inputs of the model.  [rule_matches] is the body of the loop over the
    patterns: it is [true] when the body returns [True] for [pattern]. *)

(** Normalize pattern format: [pattern.lstrip('/')], then [rstrip('/')]. *)
Definition normalize_rule (pattern : str) : str :=
  rstrip SLASH (lstrip SLASH pattern).

(** The pattern handed to [fnmatch]. *)
Definition match_pattern_of (pattern : str) : str :=
  let p := normalize_rule pattern in
  (* Handle directory recursive exclusion *)
  let p := if endswith [SLASH] pattern then p ++ lit "/**" else p in
  (* Convert wildcard syntax *)
  let p := if endswith [STAR] p && negb (endswith [STAR; STAR] p)
           then rstrip STAR p ++ lit "/*" else p in
  (* Build complete match pattern *)
  if contains SLASH p then p else lit "**/" ++ p.

Definition rule_matches (rel_path : str) (is_dir : bool) (pattern : str)
  : bool :=
  let p := normalize_rule pattern in
  (* Handle absolute path matching *)
  if startswith [SLASH] pattern && str_eqb rel_path p then true
  else
    let match_pattern := match_pattern_of pattern in
    (* Perform pattern matching with fnmatch *)
    if fnmatch rel_path match_pattern then true
    else is_dir && fnmatch (rel_path ++ [SLASH]) (match_pattern ++ lit "/*").

Fixpoint should_exclude (rel_path : str) (is_dir : bool) (patterns : list str)
  : bool :=
  match patterns with
  | [] => false
  | pattern :: rest =>
      if rule_matches rel_path is_dir pattern then true
      else should_exclude rel_path is_dir rest
  end.

(** ** Exceptions *)

Inductive exn := ValueError | IndexError.

Inductive result (A : Type) : Type :=
| Ok (a : A)
| Raise (e : exn).
Arguments Ok {A} a.
Arguments Raise {A} e.

Definition bind {A B : Type} (m : result A) (k : A -> result B) : result B :=
  match m with
  | Ok a => k a
  | Raise e => Raise e
  end.

Notation "x <- m ;; k" := (bind m (fun x => k))
  (at level 61, m at next level, right associativity).
Notation "' pat <- m ;; k" := (bind m (fun x => match x with pat => k end))
  (at level 61, pat pattern, m at next level, right associativity).

(** ** [parse_operator_value]

    [re.match(r'([<>=]+)(.+)', pattern)]: the first group takes the longest
    run of operator characters; the second needs one character that is not
    a line break and runs to the end of the line.  When nothing is left for
    the second group the first one gives its last character back. *)

Definition is_opchar (c : char) : bool :=
  N.eqb c (ch "<") || N.eqb c (ch ">") || N.eqb c (ch "=").

Fixpoint span (f : char -> bool) (s : str) : str * str :=
  match s with
  | c :: s' =>
      if f c then let '(a, b) := span f s' in (c :: a, b) else ([], s)
  | [] => ([], [])
  end.

Definition line_of (s : str) : str :=
  fst (span (fun c => negb (N.eqb c NEWLINE)) s).



(** The pattern begins with an operator character. *)
Definition starts_with_opchar (pattern : str) : bool :=
  match pattern with
  | c :: _ => is_opchar c
  | [] => false
  end.

Definition parse_operator_value (pattern : str) : result (str * str) :=
  let '(run, rest) := span is_opchar pattern in
  match run with
  | [] => Raise ValueError
  | _ :: _ =>
      match line_of rest with
      | _ :: _ => Ok (run, line_of rest)
      | [] =>
          match removelast run with
          | [] => Raise ValueError
          | op => Ok (op, [last run 0%N])
          end
      end
  end.

(** ** White space, [str.strip] and [int(size)]

    [int] reads base ten: surrounding white space, an optional sign, digits
    with single underscores between them.  The digits modelled are the
    ASCII ones. *)

(** [str.isspace] for one character *)
Definition is_space (c : char) : bool :=
  (N.leb 9 c && N.leb c 13) || (N.leb 28 c && N.leb c 32)
  || N.eqb c 133 || N.eqb c 160 || N.eqb c 5760
  || (N.leb 8192 c && N.leb c 8202)
  || N.eqb c 8232 || N.eqb c 8233 || N.eqb c 8239 || N.eqb c 8287
  || N.eqb c 12288.

(** The white space [int] steps over: the separators 28 to 31 are not. *)
Definition is_int_space (c : char) : bool :=
  is_space c && negb (N.leb 28 c && N.leb c 31).

Fixpoint lstrip_if (f : char -> bool) (s : str) : str :=
  match s with
  | c :: s' => if f c then lstrip_if f s' else s
  | [] => []
  end.

Definition strip_if (f : char -> bool) (s : str) : str :=
  rev (lstrip_if f (rev (lstrip_if f s))).

(** [s.strip()] *)
Definition strip (s : str) : str := strip_if is_space s.

Definition digit_val (c : char) : option Z :=
  if N.leb 48 c && N.leb c 57 then Some (Z.of_N c - 48)%Z else None.

Fixpoint digits (acc : Z) (after_digit : bool) (s : str) : option Z :=
  match s with
  | [] => if after_digit then Some acc else None
  | c :: s' =>
      match digit_val c with
      | Some d => digits (10 * acc + d)%Z true s'
      | None =>
          if N.eqb c (ch "_") && after_digit then digits acc false s'
          else None
      end
  end.

Definition int_of_str (s : str) : result Z :=
  let body := strip_if is_int_space s in
  let signed :=
    match body with
    | c :: s' =>
        if N.eqb c (ch "-") then option_map Z.opp (digits 0 false s')
        else if N.eqb c (ch "+") then digits 0 false s'
        else digits 0 false body
    | [] => None
    end in
  match signed with
  | Some n => Ok n
  | None => Raise ValueError
  end.

(** [s.index(c)] *)
Fixpoint index (c : char) (s : str) : result nat :=
  match s with
  | [] => Raise ValueError
  | x :: s' => if N.eqb x c then Ok O else n <- index c s' ;; Ok (S n)
  end.

(** ** The size filter

    The body of the [try] block: operator and target size in bytes. *)

Definition parse_size (file_size_arg : str) : result (str * Z) :=
  '(op, size) <- parse_operator_value file_size_arg ;;
  let size := upper size in
  match size with
  | [] => Raise IndexError
  | _ :: _ =>
      let unit := last size 0%N in
      if contains unit (lit "KMGTP") then
        i <- index unit (lit "BKMGTP") ;;
        n <- int_of_str (removelast size) ;;
        Ok (op, n * 1024 ^ Z.of_nat i)%Z
      else
        n <- int_of_str size ;;
        Ok (op, n * 1)%Z
  end.

(** The chain of comparisons: [false] stands for [continue]. *)
Definition size_compare (op : str) (file_size target_size : Z) : bool :=
  if str_eqb op (lit ">=") && negb (file_size >=? target_size)%Z then false
  else if str_eqb op (lit "<=") && negb (file_size <=? target_size)%Z then false
  else if str_eqb op (lit ">") && negb (file_size >? target_size)%Z then false
  else if str_eqb op (lit "<") && negb (file_size <? target_size)%Z then false
  else if str_eqb op (lit "==") && negb (file_size =? target_size)%Z then false
  else true.

(** [except (ValueError, IndexError): continue] *)
Definition size_filter (file_size_arg : str) (file_size : Z) : result bool :=
  match parse_size file_size_arg with
  | Raise ValueError => Ok false
  | Raise IndexError => Ok false
  | Ok (op, target_size) => Ok (size_compare op file_size target_size)
  end.

(** ** Dates

    A [datetime] without time zone: calendar date and the microseconds
    since midnight.  Comparison is field by field. *)

Record datetime := {
  dt_year : Z;
  dt_month : Z;
  dt_day : Z;
  dt_micro : Z
}.

Definition date_cmp (a b : datetime) : comparison :=
  match (dt_year a ?= dt_year b)%Z with
  | Eq => match (dt_month a ?= dt_month b)%Z with
          | Eq => (dt_day a ?= dt_day b)%Z
          | c => c
          end
  | c => c
  end.

Definition datetime_cmp (a b : datetime) : comparison :=
  match date_cmp a b with
  | Eq => (dt_micro a ?= dt_micro b)%Z
  | c => c
  end.

Definition is_leap (y : Z) : bool :=
  ((y mod 4 =? 0) && (negb (y mod 100 =? 0) || (y mod 400 =? 0)))%Z.

Definition days_in_month (y m : Z) : Z :=
  if (m =? 2)%Z then (if is_leap y then 29 else 28)%Z
  else if ((m =? 4) || (m =? 6) || (m =? 9) || (m =? 11))%Z then 30%Z
  else 31%Z.

Definition is_digit (c : char) : bool := N.leb 48 c && N.leb c 57.
Definition dval (c : char) : Z := (Z.of_N c - 48)%Z.
Definition in_range (lo hi : ascii) (c : char) : bool :=
  N.leb (ch lo) c && N.leb c (ch hi).

(** [%Y]: four digits *)
Definition read_year (s : str) : option (Z * str) :=
  match s with
  | a :: b :: c :: d :: rest =>
      if is_digit a && is_digit b && is_digit c && is_digit d
      then Some (1000 * dval a + 100 * dval b + 10 * dval c + dval d, rest)%Z
      else None
  | _ => None
  end.

(** [%m]: the alternatives [1[0-2]], [0[1-9]], [[1-9]] in that order *)
Definition month_alts (s : str) : list (Z * str) :=
  match s with
  | a :: rest =>
      match rest with
      | b :: rest' =>
          (if N.eqb a (ch "1") && in_range "0" "2" b
           then [((10 + dval b)%Z, rest')] else [])
          ++ (if N.eqb a (ch "0") && in_range "1" "9" b
              then [(dval b, rest')] else [])
      | [] => []
      end
      ++ (if in_range "1" "9" a then [(dval a, rest)] else [])
  | [] => []
  end.

(** [%d]: [3[0-1]], [[1-2]\d], [0[1-9]], [[1-9]], or a space and [[1-9]] *)
Definition day_alts (s : str) : list (Z * str) :=
  match s with
  | a :: rest =>
      match rest with
      | b :: rest' =>
          (if N.eqb a (ch "3") && in_range "0" "1" b
           then [((30 + dval b)%Z, rest')] else [])
          ++ (if in_range "1" "2" a && is_digit b
              then [((10 * dval a + dval b)%Z, rest')] else [])
          ++ (if N.eqb a (ch "0") && in_range "1" "9" b
              then [(dval b, rest')] else [])
      | [] => []
      end
      ++ (if in_range "1" "9" a then [(dval a, rest)] else [])
      ++ match rest with
         | b :: rest' =>
             if N.eqb a (ch " ") && in_range "1" "9" b
             then [(dval b, rest')] else []
         | [] => []
         end
  | [] => []
  end.

(** The first month alternative after which [-%d] still matches. *)
Fixpoint first_month (alts : list (Z * str)) : option (Z * Z * str) :=
  match alts with
  | [] => None
  | (m, rest) :: more =>
      match rest with
      | c :: rest' =>
          if N.eqb c HYPHEN then
            match day_alts rest' with
            | (d, remains) :: _ => Some (m, d, remains)
            | [] => first_month more
            end
          else first_month more
      | [] => first_month more
      end
  end.

(** [datetime.strptime(date_str, "%Y-%m-%d")]: the format has to match at
    the start, nothing may remain, and the date has to exist. *)
Definition strptime (date_str : str) : result datetime :=
  match read_year date_str with
  | Some (y, c :: rest) =>
      if N.eqb c HYPHEN then
        match first_month (month_alts rest) with
        | Some (m, d, []) =>
            if ((1 <=? y) && (d <=? days_in_month y m))%Z
            then Ok {| dt_year := y; dt_month := m; dt_day := d;
                       dt_micro := 0 |}
            else Raise ValueError
        | _ => Raise ValueError
        end
      else Raise ValueError
  | _ => Raise ValueError
  end.

Definition is_lt (c : comparison) : bool :=
  match c with Lt => true | _ => false end.
Definition is_gt (c : comparison) : bool :=
  match c with Gt => true | _ => false end.
Definition is_eq (c : comparison) : bool :=
  match c with Eq => true | _ => false end.

(** The chain of comparisons of the modification time filter. *)
Definition time_compare (op : str) (file_time target_time : datetime) : bool :=
  let c := datetime_cmp file_time target_time in
  if str_eqb op (lit ">") && negb (is_gt c) then false
  else if str_eqb op (lit "<") && negb (is_lt c) then false
  else if str_eqb op (lit ">=") && negb (negb (is_lt c)) then false
  else if str_eqb op (lit "<=") && negb (negb (is_gt c)) then false
  else if str_eqb op (lit "==") && negb (is_eq (date_cmp file_time target_time))
  then false
  else true.

(** [except ValueError: continue]; any other exception leaves the loop. *)
Definition time_filter (modified_time_arg : str) (file_time : datetime)
  : result bool :=
  match ('(op, date_str) <- parse_operator_value modified_time_arg ;;
         target_time <- strptime date_str ;;
         Ok (op, target_time)) with
  | Raise ValueError => Ok false
  | Raise e => Raise e
  | Ok (op, target_time) => Ok (time_compare op file_time target_time)
  end.

(** ** The directory tree

    What the walk reads from the file system.  The lines of a file are the
    ones [open] gives under the configured encoding; the stream ends in
    [ReadError] where opening or decoding fails.  [f_mime] is the answer of
    the MIME detector in use ([application/octet-stream] when the fallback
    detector has none); [f_mtime] is [datetime.fromtimestamp] of the
    modification time.  Names hold no separator.  The tree is one whose
    files the program can examine: reading size, time and MIME type of a
    listed file succeeds. *)

Inductive lines :=
| Eof
| Line (l : str) (rest : lines)
| ReadError.

Record file_info := {
  f_name : str;
  f_islink : bool;
  f_size : Z;
  f_mtime : datetime;
  f_mime : str;
  f_lines : lines
}.

(** A directory lists its entries in the order [os.walk] reports them.  A
    symbolic link to a directory is a directory with [islink] set. *)
Inductive entry :=
| EFile (f : file_info)
| EDir (name : str) (islink : bool) (entries : list entry).

(** Induction on a tree with the hypothesis on every entry of a
    directory. *)
Section EntryInduction.

Variable P : entry -> Prop.
Hypothesis on_file : forall f, P (EFile f).
Hypothesis on_dir :
  forall name islink entries,
    Forall P entries -> P (EDir name islink entries).

Fixpoint entry_rect_nested (e : entry) : P e :=
  match e with
  | EFile f => on_file f
  | EDir name islink entries =>
      on_dir name islink
        ((fix all (es : list entry) : Forall P es :=
            match es with
            | [] => Forall_nil P
            | e' :: es' => Forall_cons e' (entry_rect_nested e') (all es')
            end) entries)
  end.

End EntryInduction.

(** [w_gitignore]: the lines of [.gitignore] in the root, [None] when the
    file does not exist. *)
Record world := {
  w_root : list entry;
  w_gitignore : option (list str)
}.

(** The command line.  [a_type] and [a_exclude] are empty when the option
    is absent; [a_content_grep] is the pattern as the test
    [re.search(pattern, line)] it stands for, [None] on a line where the
    search raises, and absent for an empty pattern as well.
    [a_directory_is_root] says whether [os.path.abspath(args.directory)] is
    the root [/] of the file system. *)
Record args := {
  a_directory_is_root : bool;
  a_type : list str;
  a_recursive : bool;
  a_include_invisible : bool;
  a_exclude : list str;
  a_gitignore : bool;
  a_max_depth : option Z;
  a_content_grep : option (str -> option bool);
  a_file_size : option str;
  a_modified_time : option str;
  a_follow_symlinks : bool
}.

(** A path below the root, as its segments. *)
Definition path := list str.

(** [os.path.relpath(path, root_dir)] *)
Definition rel_path (p : path) : str := join [SLASH] p.

(** ** [parse_gitignore] *)

Fixpoint gitignore_patterns (file_lines : list str) : list str :=
  match file_lines with
  | [] => []
  | line :: rest =>
      let line := strip line in
      match line with
      | [] => gitignore_patterns rest
      | _ :: _ =>
          if startswith (lit "#") line then gitignore_patterns rest
          else line :: gitignore_patterns rest
      end
  end.

Definition parse_gitignore (file : option (list str)) : list str :=
  match file with
  | Some file_lines => gitignore_patterns file_lines
  | None => []
  end.

(** ** [is_text_file] *)

Definition is_text_file (f : file_info) : bool :=
  if startswith (lit "text/") (f_mime f) then true
  else if str_eqb (f_mime f) (lit "application/json")
          || str_eqb (f_mime f) (lit "application/xml") then true
  else false.

(** ** [os.path.splitext(f)[1]] *)

Fixpoint rfind (c : char) (s : str) : option nat :=
  match s with
  | [] => None
  | x :: s' =>
      match rfind c s' with
      | Some i => Some (S i)
      | None => if N.eqb x c then Some O else None
      end
  end.

(** The extension starts at the last dot that comes after the last
    separator and after a character of the name that is not a dot. *)
Definition splitext_ext (p : str) : str :=
  match rfind DOT p with
  | None => []
  | Some dot =>
      let filename := match rfind SLASH p with
                      | Some sep => S sep
                      | None => O
                      end in
      if existsb (fun c => negb (N.eqb c DOT)) (skipn filename (firstn dot p))
      then skipn dot p
      else []
  end.

(** ** The filter chain: the body of the loop over [filenames]

    [Ok true]: the file is appended to [text_files]; [Ok false]: [continue]. *)

(** A string option that is present and not empty. *)
Definition given (o : option str) : option str :=
  match o with
  | Some (c :: s) => Some (c :: s)
  | _ => None
  end.

Definition type_filter (types : list str) (name : str) : bool :=
  match types with
  | [] => true
  | _ :: _ =>
      let ext := lower (splitext_ext name) in
      match ext with
      | [] => false
      | _ :: ext1 =>
          existsb (str_eqb ext1) (map (fun t => lstrip DOT (lower t)) types)
      end
  end.

(** The scan of the content filter. *)
Fixpoint grep (search : str -> option bool) (fh : lines) : bool :=
  match fh with
  | Eof => false
  | ReadError => false
  | Line l rest =>
      match search l with
      | Some true => true
      | Some false => grep search rest
      | None => false
      end
  end.

Definition content_filter (a : args) (f : file_info) : bool :=
  match a_content_grep a with
  | Some search => if is_text_file f then grep search (f_lines f) else true
  | None => true
  end.

Definition accept (a : args) (all_exclude_patterns : list str)
    (dirpath : path) (f : file_info) : result bool :=
  let full_path := dirpath ++ [f_name f] in
  (* Exclusion check *)
  if should_exclude (rel_path full_path) false all_exclude_patterns
  then Ok false
  (* File type filter *)
  else if negb (type_filter (a_type a) (f_name f)) then Ok false
  else
    (* File size filter *)
    size_ok <- match given (a_file_size a) with
               | Some file_size_arg => size_filter file_size_arg (f_size f)
               | None => Ok true
               end ;;
    if negb size_ok then Ok false
    else
      (* Modification time filter *)
      time_ok <- match given (a_modified_time a) with
                 | Some modified_time_arg =>
                     time_filter modified_time_arg (f_mtime f)
                 | None => Ok true
                 end ;;
      if negb time_ok then Ok false
      (* Content regex filter *)
      else if negb (content_filter a f) then Ok false
      (* Final text file confirmation *)
      else Ok (is_text_file f).

(** What is known of a collected path: it names a file the filter chain
    accepted in the directory it lies in. *)
Definition collected (a : args) (patterns : list str) (p : path)
  : Prop :=
  exists dirpath f,
    p = dirpath ++ [f_name f] /\ accept a patterns dirpath f = Ok true.

(** ** The walk *)

(** [dirpath[len(root_dir):]]: the walk's [dirpath] is [root_dir] joined
    with the segments below it.  Joining puts a separator before every
    segment, except before the first one when [root_dir] is [/], which
    ends in the separator already. *)
Definition dirpath_suffix (root_is_slash : bool) (dirpath : path) : str :=
  if root_is_slash then join [SLASH] dirpath
  else List.concat (map (fun name => SLASH :: name) dirpath).

(** [dirpath[len(root_dir):].count(os.sep)] *)
Definition current_depth (root_is_slash : bool) (dirpath : path) : Z :=
  Z.of_nat (count_occ N.eq_dec (dirpath_suffix root_is_slash dirpath) SLASH).

Definition depth_reached (a : args) (dirpath : path) : bool :=
  match a_max_depth a with
  | Some max_depth =>
      (current_depth (a_directory_is_root a) dirpath >=? max_depth)%Z
  | None => false
  end.

(** Hidden files handling and symbolic links handling, for one name. *)
Definition kept (a : args) (name : str) (islink : bool) : bool :=
  (a_include_invisible a || negb (startswith [DOT] name))
  && (a_follow_symlinks a || negb islink).

(** The loop over the file names of one directory. *)
Fixpoint visit_files (a : args) (all_exclude_patterns : list str)
    (dirpath : path) (entries : list entry) : result (list path) :=
  match entries with
  | [] => Ok []
  | EDir _ _ _ :: rest => visit_files a all_exclude_patterns dirpath rest
  | EFile f :: rest =>
      if kept a (f_name f) (f_islink f) then
        ok <- accept a all_exclude_patterns dirpath f ;;
        more <- visit_files a all_exclude_patterns dirpath rest ;;
        Ok (if ok then (dirpath ++ [f_name f]) :: more else more)
      else visit_files a all_exclude_patterns dirpath rest
  end.

(** One step of [os.walk] top down with the loop body: the directory's own
    files first, then the directories left in [dirnames], in order. *)
Fixpoint walk (a : args) (all_exclude_patterns : list str)
    (dirpath : path) (dir : entry) {struct dir} : result (list path) :=
  match dir with
  | EFile _ => Ok []
  | EDir _ _ entries =>
      (* Depth control *)
      if depth_reached a dirpath then Ok []
      else
        here <- visit_files a all_exclude_patterns dirpath entries ;;
        below <-
          (fix descend (es : list entry) : result (list path) :=
             match es with
             | [] => Ok []
             | EFile _ :: rest => descend rest
             | EDir name islink _ as sub :: rest =>
                 if kept a name islink then
                   first <- walk a all_exclude_patterns
                              (dirpath ++ [name]) sub ;;
                   others <- descend rest ;;
                   Ok (first ++ others)
                 else descend rest
             end) entries ;;
        Ok (here ++ below)
  end.

(** ** [get_sort_key] and the sort *)

Fixpoint str_ltb (a b : str) : bool :=
  match a, b with
  | _, [] => false
  | [], _ :: _ => true
  | x :: a', y :: b' => N.ltb x y || (N.eqb x y && str_ltb a' b')
  end.

(** Tuples of strings, compared item by item; a proper prefix is smaller. *)
Fixpoint strs_ltb (a b : list str) : bool :=
  match a, b with
  | _, [] => false
  | [], _ :: _ => true
  | x :: a', y :: b' => str_ltb x y || (str_eqb x y && strs_ltb a' b')
  end.

(** The key: the negated depth, then the converted segments. *)
Definition sort_key := (Z * list str)%type.

Definition key_ltb (k1 k2 : sort_key) : bool :=
  (fst k1 <? fst k2)%Z || ((fst k1 =? fst k2)%Z && strs_ltb (snd k1) (snd k2)).

Fixpoint strs_eqb (a b : list str) : bool :=
  match a, b with
  | [], [] => true
  | x :: a', y :: b' => str_eqb x y && strs_eqb a' b'
  | _, _ => false
  end.

Definition key_eqb (k1 k2 : sort_key) : bool :=
  (fst k1 =? fst k2)%Z && strs_eqb (snd k1) (snd k2).

Section Sorting.

(** [pypinyin.lazy_pinyin]: the pieces of the converted name, or an
    exception. *)
Variable lazy_pinyin : str -> result (list str).

(** Convert Chinese characters to pinyin *)
Definition trans (name : str) : str :=
  match lazy_pinyin name with
  | Ok pieces => List.concat pieces
  | Raise _ => lower name
  end.

Definition get_sort_key (p : path) : sort_key :=
  let parts := split SLASH (rel_path p) in
  let depth := (Z.of_nat (List.length parts) - 1)%Z in
  ((- depth)%Z, map trans (removelast parts) ++ [trans (last parts [])]).

(** [list.sort(key=...)] is stable and compares keys with [<] only: an
    item goes before the first item whose key is not below its own. *)
Fixpoint insert_by_key (x : path) (sorted : list path) : list path :=
  match sorted with
  | [] => [x]
  | y :: rest =>
      if key_ltb (get_sort_key y) (get_sort_key x)
      then y :: insert_by_key x rest
      else x :: sorted
  end.

Fixpoint sort_by_key (files : list path) : list path :=
  match files with
  | [] => []
  | x :: rest => insert_by_key x (sort_by_key rest)
  end.

(** The items whose key is [k]. *)
Definition has_key (k : sort_key) (p : path) : bool :=
  key_eqb (get_sort_key p) k.

(** ** [process_directory] *)

(** [os.path.dirname(f) == root_dir] *)
Definition in_root (p : path) : bool :=
  match removelast p with
  | [] => true
  | _ :: _ => false
  end.

Definition all_patterns (a : args) (w : world) : list str :=
  a_exclude a
  ++ (if a_gitignore a then parse_gitignore (w_gitignore w) else []).

Definition process_directory (a : args) (w : world) : result (list path) :=
  let all_exclude_patterns := all_patterns a w in
  (* Walk directory tree *)
  text_files <- walk a all_exclude_patterns [] (EDir [] false (w_root w)) ;;
  (* Non-recursive mode filtering *)
  let text_files := if a_recursive a then text_files
                    else filter in_root text_files in
  (* Sorting *)
  Ok (sort_by_key text_files).

End Sorting.

(** ** Sample data for the closed statements *)

(** Two entries of the pinyin dictionary: U+9A6C and U+5988 both read
    [ma].  Every other character is kept as it is. *)
Definition pinyin_table (c : char) : option str :=
  if N.eqb c 39532 then Some (lit "ma")
  else if N.eqb c 22920 then Some (lit "ma")
  else None.

Definition pinyin_excerpt (name : str) : result (list str) :=
  Ok (map (fun c => match pinyin_table c with
                    | Some syllable => syllable
                    | None => [c]
                    end) name).

Definition noon : datetime :=
  {| dt_year := 2024; dt_month := 1; dt_day := 15; dt_micro := 43200000000 |}.

Definition text_file (name : str) (size : Z) : file_info :=
  {| f_name := name; f_islink := false; f_size := size; f_mtime := noon;
     f_mime := lit "text/plain"; f_lines := Line (lit "hello") Eof |}.

(** Every file of the tree, no filter. *)
Definition plain_args : args :=
  {| a_directory_is_root := false;
     a_type := []; a_recursive := true; a_include_invisible := false;
     a_exclude := []; a_gitignore := false; a_max_depth := None;
     a_content_grep := None; a_file_size := None; a_modified_time := None;
     a_follow_symlinks := false |}.

Definition with_max_depth (d : Z) (a : args) : args :=
  {| a_directory_is_root := a_directory_is_root a;
     a_type := a_type a; a_recursive := a_recursive a;
     a_include_invisible := a_include_invisible a; a_exclude := a_exclude a;
     a_gitignore := a_gitignore a; a_max_depth := Some d;
     a_content_grep := a_content_grep a; a_file_size := a_file_size a;
     a_modified_time := a_modified_time a;
     a_follow_symlinks := a_follow_symlinks a |}.

Definition with_file_size (s : str) (a : args) : args :=
  {| a_directory_is_root := a_directory_is_root a;
     a_type := a_type a; a_recursive := a_recursive a;
     a_include_invisible := a_include_invisible a; a_exclude := a_exclude a;
     a_gitignore := a_gitignore a; a_max_depth := a_max_depth a;
     a_content_grep := a_content_grep a; a_file_size := Some s;
     a_modified_time := a_modified_time a;
     a_follow_symlinks := a_follow_symlinks a |}.


Definition with_exclude (patterns : list str) (a : args) : args :=
  {| a_directory_is_root := a_directory_is_root a;
     a_type := a_type a; a_recursive := a_recursive a;
     a_include_invisible := a_include_invisible a; a_exclude := patterns;
     a_gitignore := a_gitignore a; a_max_depth := a_max_depth a;
     a_content_grep := a_content_grep a; a_file_size := a_file_size a;
     a_modified_time := a_modified_time a;
     a_follow_symlinks := a_follow_symlinks a |}.

Definition with_type (types : list str) (a : args) : args :=
  {| a_directory_is_root := a_directory_is_root a;
     a_type := types; a_recursive := a_recursive a;
     a_include_invisible := a_include_invisible a; a_exclude := a_exclude a;
     a_gitignore := a_gitignore a; a_max_depth := a_max_depth a;
     a_content_grep := a_content_grep a; a_file_size := a_file_size a;
     a_modified_time := a_modified_time a;
     a_follow_symlinks := a_follow_symlinks a |}.

(** [a.txt] in the root and [sub/b.txt]. *)
Definition a_txt : file_info := text_file (lit "a.txt") 500.
Definition b_txt : file_info := text_file (lit "b.txt") 1025.

Definition small_tree : world :=
  {| w_root := [EFile a_txt; EDir (lit "sub") false [EFile b_txt]];
     w_gitignore := None |}.

(** A root with [build/out.o], [foo.txt], [Makefile] and [sub/foo.txt]. *)
Definition project_tree : world :=
  {| w_root := [EDir (lit "build") false [EFile (text_file (lit "out.o") 10)];
                EFile (text_file (lit "foo.txt") 10);
                EFile (text_file (lit "Makefile") 10);
                EDir (lit "sub") false [EFile (text_file (lit "foo.txt") 10)]];
     w_gitignore := Some [lit "# build output"; lit "  build/  "; lit ""] |}.

(** Two names that differ and read the same. *)
Definition ma_horse : path := [[39532%N] ++ lit ".txt"].
Definition ma_mother : path := [[22920%N] ++ lit ".txt"].

(** ** The walk, read as a relation

    [descend] is the loop of [os.walk] over the directories left in
    [dirnames], on its own. *)

Fixpoint descend (a : args) (all_exclude_patterns : list str)
    (dirpath : path) (es : list entry) : result (list path) :=
  match es with
  | [] => Ok []
  | EFile _ :: rest => descend a all_exclude_patterns dirpath rest
  | EDir name islink _ as sub :: rest =>
      if kept a name islink then
        first <- walk a all_exclude_patterns (dirpath ++ [name]) sub ;;
        others <- descend a all_exclude_patterns dirpath rest ;;
        Ok (first ++ others)
      else descend a all_exclude_patterns dirpath rest
  end.

(** [selected a patterns dirpath entries p f]: the walk, standing in the
    directory [dirpath] with the listing [entries], reaches the file [f]
    under the path [p] and the filter chain accepts it there.  Every
    directory on the way is within the depth limit and is kept by the
    hidden-name and symbolic-link handling. *)
Inductive selected (a : args) (patterns : list str)
  : path -> list entry -> path -> file_info -> Prop :=
| selected_here (dirpath : path) (entries : list entry) (f : file_info) :
    depth_reached a dirpath = false ->
    In (EFile f) entries ->
    kept a (f_name f) (f_islink f) = true ->
    accept a patterns dirpath f = Ok true ->
    selected a patterns dirpath entries (dirpath ++ [f_name f]) f
| selected_below (dirpath : path) (entries : list entry) (name : str)
    (islink : bool) (sub : list entry) (p : path) (f : file_info) :
    depth_reached a dirpath = false ->
    In (EDir name islink sub) entries ->
    kept a name islink = true ->
    selected a patterns (dirpath ++ [name]) sub p f ->
    selected a patterns dirpath entries p f.

(** The order the sort establishes between neighbours: the key of the
    later item is not below the key of the earlier one. *)
Definition key_le (lazy_pinyin : str -> result (list str)) (x y : path)
  : Prop :=
  key_ltb (get_sort_key lazy_pinyin y) (get_sort_key lazy_pinyin x) = false.

(** ** [get_file_language] *)

(** File extension to Markdown language mapping *)
Definition LANGUAGE_MAP : list (str * str) :=
  [(lit "py", lit "python");
   (lit "js", lit "javascript");
   (lit "java", lit "java");
   (lit "c", lit "c");
   (lit "cpp", lit "cpp");
   (lit "html", lit "html");
   (lit "css", lit "css");
   (lit "php", lit "php");
   (lit "json", lit "json");
   (lit "xml", lit "xml");
   (lit "sql", lit "sql");
   (lit "sh", lit "bash");
   (lit "md", lit "markdown")].

(** [d.get(key, default)] *)
Fixpoint dict_get (d : list (str * str)) (key default : str) : str :=
  match d with
  | [] => default
  | (k, v) :: rest => if str_eqb k key then v else dict_get rest key default
  end.

Definition get_file_language (filename : str) : str :=
  let ext := lower (last (split DOT filename) []) in
  dict_get LANGUAGE_MAP ext (lit "text").

(** ** [write_markdown]

    The text of the [output.write] calls.  The prompt of [input] and the
    progress lines of [print] go to the terminal and are left out; they
    share the stream only when [args.output] is [-].  A file is read line
    by line under the configured encoding; the read ends well, or with a
    [UnicodeDecodeError], or with another exception and its message.
    [s_gbk] is the whole content read under GBK, [None] when that fails
    too.  [s_md5] is the hex digest of the content. *)

Inductive read_stream :=
| REof
| RLine (l : str) (rest : read_stream)
| RDecodeError
| RError (message : str).

Record source_file := {
  s_path : path;
  s_md5 : str;
  s_text : read_stream;
  s_gbk : option str
}.

Record write_args := {
  wa_interactive : bool;
  wa_checksum : bool
}.

(** The body of the code block: the lines written before an exception
    stay written. *)
Fixpoint write_content (fh : read_stream) (gbk : option str) : str :=
  match fh with
  | REof => []
  | RLine l rest => l ++ write_content rest gbk
  | RDecodeError =>
      match gbk with
      | Some content => content
      | None => lit "<<Unable to decode file content>>" ++ [NEWLINE]
      end
  | RError message =>
      lit "<<File read error: " ++ message ++ lit ">>" ++ [NEWLINE]
  end.

(** Header, opening fence with the language, content, closing fence. *)
Definition write_block (wa : write_args) (f : source_file) : str :=
  let checksum := if wa_checksum wa then s_md5 f else [] in
  let header := lit "# " ++ rel_path (s_path f) in
  let header := match checksum with
                | [] => header
                | _ :: _ => header ++ lit " (MD5: " ++ checksum ++ lit ")"
                end in
  let language := get_file_language (last (s_path f) []) in
  header ++ [NEWLINE; NEWLINE] ++ lit "```" ++ language ++ [NEWLINE]
  ++ write_content (s_text f) (s_gbk f)
  ++ [NEWLINE] ++ lit "```" ++ [NEWLINE; NEWLINE].

(** The confirmation loop: lines are read from the terminal until one of
    them, stripped and lowered, is empty, [y] or [n].  [None]: the input
    ended first. *)
Fixpoint ask (answers : list str) : option (str * list str) :=
  match answers with
  | [] => None
  | line :: rest =>
      let choice := lower (strip line) in
      if str_eqb choice [] || str_eqb choice (lit "y")
         || str_eqb choice (lit "n")
      then Some (choice, rest)
      else ask rest
  end.

(** The text written and whether the loop over the files came to its end
    ([false]: the terminal input ended at a prompt). *)
Fixpoint write_markdown (wa : write_args) (files : list source_file)
    (answers : list str) : str * bool :=
  match files with
  | [] => ([], true)
  | f :: rest =>
      if wa_interactive wa then
        match ask answers with
        | None => ([], false)
        | Some (choice, answers') =>
            if str_eqb choice (lit "n") then write_markdown wa rest answers'
            else
              let '(text, done) := write_markdown wa rest answers' in
              (write_block wa f ++ text, done)
        end
      else
        let '(text, done) := write_markdown wa rest answers in
        (write_block wa f ++ text, done)
  end.

(** An answer that stands for yes: empty or [y] once stripped and lowered. *)
Definition says_yes (line : str) : Prop :=
  lower (strip line) = [] \/ lower (strip line) = lit "y".

Definition says_no (line : str) : Prop :=
  lower (strip line) = lit "n".

(** A source file for the closed statements. *)
Definition sample_source (name : string) (text : read_stream) : source_file :=
  {| s_path := [lit name]; s_md5 := lit "d41d8cd98f00b204e9800998ecf8427e";
     s_text := text; s_gbk := None |}.

(** The walk of the root [/] of the file system, down to depth 1. *)
Definition slash_root_args : args :=
  {| a_directory_is_root := true;
     a_type := []; a_recursive := true; a_include_invisible := false;
     a_exclude := []; a_gitignore := false; a_max_depth := Some 1%Z;
     a_content_grep := None; a_file_size := None; a_modified_time := None;
     a_follow_symlinks := false |}.

Definition with_recursive (recursive : bool) (a : args) : args :=
  {| a_directory_is_root := a_directory_is_root a;
     a_type := a_type a; a_recursive := recursive;
     a_include_invisible := a_include_invisible a; a_exclude := a_exclude a;
     a_gitignore := a_gitignore a; a_max_depth := a_max_depth a;
     a_content_grep := a_content_grep a; a_file_size := a_file_size a;
     a_modified_time := a_modified_time a;
     a_follow_symlinks := a_follow_symlinks a |}.

(** A root with [.env], [.git/config], [src/.cache/x.txt], [src/main.py]
    and the image [logo.png]. *)
Definition hidden_tree : world :=
  {| w_root :=
       [EFile (text_file (lit ".env") 10);
        EDir (lit ".git") false [EFile (text_file (lit "config") 10)];
        EDir (lit "src") false
          [EDir (lit ".cache") false [EFile (text_file (lit "x.txt") 10)];
           EFile (text_file (lit "main.py") 10)];
        EFile {| f_name := lit "logo.png"; f_islink := false; f_size := 10;
                 f_mtime := noon; f_mime := lit "image/png";
                 f_lines := ReadError |}];
     w_gitignore := None |}.

(** The stream that gives the lines [before] and goes on as [rest]. *)
Fixpoint read_then (before : list str) (rest : lines) : lines :=
  match before with
  | [] => rest
  | l :: more => Line l (read_then more rest)
  end.

(** A link in a tree of [small_tree]'s shape: [a.txt] is a symbolic link. *)
Definition link_tree : world :=
  {| w_root :=
       [EFile {| f_name := lit "a.txt"; f_islink := true; f_size := 500;
                 f_mtime := noon; f_mime := lit "text/plain";
                 f_lines := Eof |};
        EFile b_txt];
     w_gitignore := None |}.

(** [args.output]: [-] for the standard output, or the name of a file,
    which [open] can or cannot open for writing. *)
Inductive destination :=
| Stdout
| OutputFile (name : str) (writable : bool).

(** The file a run writes and its content: the text of the [output.write]
    calls when [args.output] names a file that can be opened, and no file
    otherwise.  The prompts of the interactive mode and the progress lines
    go to the terminal and are no part of the file. *)
Definition file_written (out : destination) (wa : write_args)
    (files : list source_file) (answers : list str) : option (str * str) :=
  match out with
  | OutputFile name true => Some (name, fst (write_markdown wa files answers))
  | OutputFile _ false => None
  | Stdout => None
  end.

(** * Properties *)

(** ** Strings and keys *)

Lemma str_eqb_refl (a : str) : str_eqb a a = true.
Proof.
  induction a as [|x a IH]; simpl; [reflexivity|].
  now rewrite N.eqb_refl, IH.
Qed.

Lemma str_eqb_eq (a b : str) : str_eqb a b = true <-> a = b.
Proof.
  split; [|intros ->; apply str_eqb_refl].
  revert b; induction a as [|x a IH]; intros [|y b]; simpl; try discriminate.
  - reflexivity.
  - intros H. apply andb_true_iff in H as [Hx Hab].
    apply N.eqb_eq in Hx. now rewrite Hx, (IH b Hab).
Qed.

Lemma str_ltb_irrefl (a : str) : str_ltb a a = false.
Proof.
  induction a as [|x a IH]; simpl; [reflexivity|].
  now rewrite N.ltb_irrefl, IH, andb_false_r.
Qed.

Lemma strs_ltb_irrefl (l : list str) : strs_ltb l l = false.
Proof.
  induction l as [|x l IH]; simpl; [reflexivity|].
  now rewrite str_ltb_irrefl, IH, andb_false_r.
Qed.

Lemma key_ltb_irrefl (k : sort_key) : key_ltb k k = false.
Proof.
  unfold key_ltb. now rewrite Z.ltb_irrefl, strs_ltb_irrefl, andb_false_r.
Qed.

(** ** The sort *)

Section SortFacts.

Variable lazy_pinyin : str -> result (list str).

Lemma in_insert_by_key (x y : path) (l : list path) :
  In y (insert_by_key lazy_pinyin x l) -> y = x \/ In y l.
Proof.
  induction l as [|z l IH]; simpl.
  - intros [H|[]]; auto.
  - destruct (key_ltb _ _); simpl.
    + intros [H|H]; auto. destruct (IH H); auto.
    + intros [H|H]; auto.
Qed.

Lemma in_sort_by_key (y : path) (files : list path) :
  In y (sort_by_key lazy_pinyin files) -> In y files.
Proof.
  induction files as [|x l IH]; simpl; [tauto|].
  intros H. destruct (in_insert_by_key _ _ _ H) as [->|H']; auto.
Qed.

(** The items of one key keep their order through an insertion. *)
Lemma filter_insert_by_key (keep : path -> bool) (x : path) (l : list path) :
  (forall y, keep y = true ->
             key_ltb (get_sort_key lazy_pinyin y) (get_sort_key lazy_pinyin x)
             = true ->
             keep x = false) ->
  filter keep (insert_by_key lazy_pinyin x l) = filter keep (x :: l).
Proof.
  intros Hkeep. induction l as [|y l IH]; [reflexivity|].
  simpl insert_by_key.
  destruct (key_ltb _ _) eqn:Hlt; [|reflexivity].
  simpl filter at 1. rewrite IH. simpl.
  destruct (keep y) eqn:Hy; [|reflexivity].
  now rewrite (Hkeep y Hy Hlt).
Qed.

(** A deeper path has the smaller key. *)
Lemma deeper_key_is_smaller (p q : path) :
  (List.length (split SLASH (rel_path p))
   < List.length (split SLASH (rel_path q)))%nat ->
  key_ltb (get_sort_key lazy_pinyin q) (get_sort_key lazy_pinyin p) = true.
Proof.
  intros H. unfold key_ltb, get_sort_key. simpl fst.
  apply orb_true_iff. left. apply Z.ltb_lt. lia.
Qed.

End SortFacts.

(** ** The walk *)

Section WalkFacts.

Variable a : args.
Variable patterns : list str.

Lemma visit_files_collected (dirpath : path) (entries : list entry) :
  forall found,
    visit_files a patterns dirpath entries = Ok found ->
    Forall (collected a patterns) found.
Proof.
  induction entries as [|e es IH]; simpl; intros found H.
  - injection H as <-. constructor.
  - destruct e as [f|name islink sub]; [|now apply IH].
    destruct (kept a (f_name f) (f_islink f)); [|now apply IH].
    destruct (accept a patterns dirpath f) as [ok|] eqn:Hacc; [|discriminate].
    simpl in H.
    destruct (visit_files a patterns dirpath es) as [more|]; [|discriminate].
    simpl in H. injection H as <-.
    specialize (IH more eq_refl).
    destruct ok; [|assumption].
    constructor; [|assumption].
    now exists dirpath, f.
Qed.

Lemma walk_collected (dir : entry) :
  forall dirpath found,
    walk a patterns dirpath dir = Ok found ->
    Forall (collected a patterns) found.
Proof.
  induction dir as [f|name islink entries IH] using entry_rect_nested;
    intros dirpath found H; simpl in H.
  - injection H as <-. constructor.
  - destruct (depth_reached a dirpath); [injection H as <-; constructor|].
    destruct (visit_files a patterns dirpath entries) as [here|] eqn:Hhere;
      [|discriminate].
    simpl in H.
    apply visit_files_collected in Hhere.
    match type of H with
    | bind (?descend entries) _ = _ =>
        assert (Hbelow : forall below, descend entries = Ok below ->
                                       Forall (collected a patterns) below)
    end.
    { clear H Hhere. induction IH as [|e es He Hes IHes]; intros below Hb.
      - injection Hb as <-. constructor.
      - destruct e as [f|n l sub]; [now apply IHes|].
        destruct (kept a n l); [|now apply IHes].
        destruct (walk a patterns (dirpath ++ [n]) (EDir n l sub))
          as [first|] eqn:Hfirst; [|discriminate].
        simpl in Hb.
        match type of Hb with
        | bind ?m _ = _ => destruct m as [others|] eqn:Hothers; [|discriminate]
        end.
        simpl in Hb. injection Hb as <-.
        apply Forall_app. split; [now apply (He _ _ Hfirst)|now apply IHes]. }
    match type of H with
    | bind ?m _ = _ => destruct m as [below|] eqn:Hb; [|discriminate]
    end.
    simpl in H. injection H as <-.
    apply Forall_app. split; [assumption|now apply Hbelow].
Qed.



End WalkFacts.

(** ** Order of the output *)

(** C1: the sort is meant to put a shallower file before a deeper one.  On
    the tree with [a.txt] in the root and [sub/b.txt] the key of the deeper
    file is the smaller one (its negated depth is [-1] against [0]) and the
    ascending sort puts [sub/b.txt] first: the deeper file precedes the
    shallower one. *)
Theorem C1_deeper_file_comes_first :
  get_sort_key pinyin_excerpt [lit "a.txt"] = (0%Z, [lit "a.txt"])
  /\ get_sort_key pinyin_excerpt [lit "sub"; lit "b.txt"]
     = ((-1)%Z, [lit "sub"; lit "b.txt"])
  /\ key_ltb (get_sort_key pinyin_excerpt [lit "sub"; lit "b.txt"])
             (get_sort_key pinyin_excerpt [lit "a.txt"]) = true
  /\ process_directory pinyin_excerpt plain_args small_tree
     = Ok [[lit "sub"; lit "b.txt"]; [lit "a.txt"]].
Proof. repeat split; vm_compute; reflexivity. Qed.

(** ** Depth control *)

(** With max depth 0 the file [a.txt], which lies in the root and passes
    the whole filter chain, is not in the output: the output is empty,
    while without a depth limit the same file is listed. *)
Lemma C2_root_file_dropped_at_depth_zero :
  In (EFile a_txt) (w_root small_tree)
  /\ kept (with_max_depth 0 plain_args) (f_name a_txt) (f_islink a_txt) = true
  /\ accept (with_max_depth 0 plain_args)
            (all_patterns (with_max_depth 0 plain_args) small_tree) [] a_txt
     = Ok true
  /\ process_directory pinyin_excerpt (with_max_depth 0 plain_args) small_tree
     = Ok []
  /\ process_directory pinyin_excerpt plain_args small_tree
     = Ok [[lit "sub"; lit "b.txt"]; [lit "a.txt"]].
Proof.
  split; [left; reflexivity|].
  repeat split; vm_compute; reflexivity.
Qed.

(** C2, amended: when the traversal is configured with max depth 0 no
    directory is processed, the root included: the root's direct children
    are not eligible, no file below a subdirectory is considered, and the
    output is empty. *)
Theorem C2_max_depth_zero_visits_nothing
    (lazy_pinyin : str -> result (list str)) (a : args) (w : world) :
  a_max_depth a = Some 0%Z ->
  walk a (all_patterns a w) [] (EDir [] false (w_root w)) = Ok []
  /\ process_directory lazy_pinyin a w = Ok [].
Proof.
  intros Hdepth.
  assert (Hwalk : walk a (all_patterns a w) [] (EDir [] false (w_root w))
                  = Ok []).
  { simpl. unfold depth_reached. rewrite Hdepth.
    now destruct (a_directory_is_root a). }
  split; [exact Hwalk|].
  unfold process_directory. rewrite Hwalk. simpl.
  destruct (a_recursive a); reflexivity.
Qed.

Lemma C2_max_depth_zero_witness :
  a_max_depth (with_max_depth 0 plain_args) = Some 0%Z
  /\ process_directory pinyin_excerpt (with_max_depth 0 plain_args) small_tree
     = Ok [].
Proof.
  split; [reflexivity|].
  apply (C2_max_depth_zero_visits_nothing pinyin_excerpt
           (with_max_depth 0 plain_args) small_tree).
  reflexivity.
Defined.

(** ** The size filter *)

(** C3: the filter [>1K] keeps a file of 1025 bytes and drops one of 1024
    bytes.  The filter [<=500B] does not keep a file of 500 bytes: the
    letter B is not among the unit letters the code strips, so [int] is
    given [500B], raises, and the file is skipped. *)
Theorem C3_size_filter_examples :
  size_filter (lit ">1K") 1025 = Ok true
  /\ size_filter (lit ">1K") 1024 = Ok false
  /\ parse_size (lit "<=500B") = Raise ValueError
  /\ size_filter (lit "<=500B") 500 = Ok false
  /\ accept (with_file_size (lit "<=500B") plain_args) [] [] a_txt = Ok false
  /\ size_filter (lit "<=500") 500 = Ok true.
Proof. repeat split; vm_compute; reflexivity. Qed.

(** ** Exclusion rules *)

(** The rule [/src/*.c] is anchored and matches [src/a.c], which is not the
    normalized rule [src/*.c]; the rule [/build] matches [sub/build]. *)
Lemma C5_anchored_rule_matches_other_path :
  startswith [SLASH] (lit "/src/*.c") = true
  /\ rule_matches (lit "src/a.c") false (lit "/src/*.c") = true
  /\ lit "src/a.c" <> normalize_rule (lit "/src/*.c")
  /\ rule_matches (lit "sub/build") false (lit "/build") = true
  /\ lit "sub/build" <> normalize_rule (lit "/build").
Proof. repeat split; vm_compute; (reflexivity || discriminate). Qed.

(** C5, amended: for every anchored exclusion rule and every relative
    path, the matcher reports a match when the relative path equals the
    normalized rule exactly, and besides that whenever the wildcard
    matching every rule goes through reports one; the anchor adds the
    exact path and takes nothing away. *)
Theorem C5_anchored_rule_match
    (pattern rel : str) (is_dir : bool) :
  startswith [SLASH] pattern = true ->
  (rel = normalize_rule pattern -> rule_matches rel is_dir pattern = true)
  /\ (rule_matches rel is_dir pattern = true <->
      rel = normalize_rule pattern
      \/ fnmatch rel (match_pattern_of pattern) = true
      \/ (is_dir = true
          /\ fnmatch (rel ++ [SLASH]) (match_pattern_of pattern ++ lit "/*")
             = true)).
Proof.
  intros Hanchor.
  assert (Hiff : rule_matches rel is_dir pattern = true <->
      rel = normalize_rule pattern
      \/ fnmatch rel (match_pattern_of pattern) = true
      \/ (is_dir = true
          /\ fnmatch (rel ++ [SLASH]) (match_pattern_of pattern ++ lit "/*")
             = true)).
  { unfold rule_matches. rewrite Hanchor. simpl andb.
    destruct (str_eqb rel (normalize_rule pattern)) eqn:Heq.
    - apply str_eqb_eq in Heq. tauto.
    - assert (rel <> normalize_rule pattern).
      { intros E. apply str_eqb_eq in E. congruence. }
      destruct (fnmatch rel (match_pattern_of pattern)); [tauto|].
      rewrite andb_true_iff.
      split; [tauto|].
      intros [E|[E|E]]; [contradiction|discriminate|assumption]. }
  split; [|exact Hiff].
  intros E. apply Hiff. now left.
Qed.

Lemma C5_anchored_rule_witness :
  startswith [SLASH] (lit "/build") = true
  /\ rule_matches (lit "build") false (lit "/build") = true.
Proof.
  split; [reflexivity|].
  apply (proj1 (C5_anchored_rule_match (lit "/build") (lit "build") false
                  eq_refl)).
  reflexivity.
Defined.

(** ** Filter strings without an operator *)


(** The size filter raises nothing. *)
Lemma size_filter_total (s : str) (n : Z) :
  exists ok, size_filter s n = Ok ok.
Proof.
  unfold size_filter.
  destruct (parse_size s) as [[op target]|[]]; eauto.
Qed.







(** ** Exclusion and acceptance *)

Lemma accept_not_excluded (a : args) (patterns : list str) (dirpath : path)
    (f : file_info) :
  accept a patterns dirpath f = Ok true ->
  should_exclude (rel_path (dirpath ++ [f_name f])) false patterns = false.
Proof.
  unfold accept. destruct (should_exclude _ _ _); [discriminate|reflexivity].
Qed.

Lemma process_directory_collected
    (lazy_pinyin : str -> result (list str)) (a : args) (w : world)
    (files : list path) (p : path) :
  process_directory lazy_pinyin a w = Ok files ->
  In p files ->
  collected a (all_patterns a w) p.
Proof.
  unfold process_directory. intros H Hin.
  destruct (walk a (all_patterns a w) [] (EDir [] false (w_root w)))
    as [found|] eqn:Hwalk; [|discriminate].
  simpl in H. injection H as <-.
  apply in_sort_by_key in Hin.
  assert (Hfound : In p found).
  { destruct (a_recursive a); [assumption|].
    now apply filter_In in Hin as [Hin _]. }
  pose proof (@walk_collected _ _ _ _ _ Hwalk) as Hall.
  rewrite Forall_forall in Hall. now apply Hall.
Qed.

(** C7: for every run and every path in the final output list, the test of
    that path against the combined exclusion rules of the run is false. *)
Theorem C7_output_path_not_excluded
    (lazy_pinyin : str -> result (list str)) (a : args) (w : world)
    (files : list path) (p : path) :
  process_directory lazy_pinyin a w = Ok files ->
  In p files ->
  should_exclude (rel_path p) false (all_patterns a w) = false.
Proof.
  intros H Hin.
  destruct (@process_directory_collected _ _ _ _ _ H Hin)
    as (d & f & -> & Hacc).
  now apply accept_not_excluded in Hacc.
Qed.

Lemma C7_output_path_witness :
  process_directory pinyin_excerpt (with_exclude [lit "*.o"] plain_args)
    project_tree
  = Ok [[lit "sub"; lit "foo.txt"]; [lit "Makefile"]; [lit "foo.txt"]]
  /\ In [lit "sub"; lit "foo.txt"]
        [[lit "sub"; lit "foo.txt"]; [lit "Makefile"]; [lit "foo.txt"]]
  /\ should_exclude (rel_path [lit "sub"; lit "foo.txt"]) false
       (all_patterns (with_exclude [lit "*.o"] plain_args) project_tree)
     = false.
Proof.
  split; [reflexivity|]. split; [left; reflexivity|].
  apply (C7_output_path_not_excluded pinyin_excerpt
           (with_exclude [lit "*.o"] plain_args) project_tree
           (files := [[lit "sub"; lit "foo.txt"]; [lit "Makefile"];
                      [lit "foo.txt"]])).
  - reflexivity.
  - left. reflexivity.
Defined.

(** ** Rules without a separator *)

Lemma glob_star_skip (ts : list glob_tok) (s1 s2 : str) :
  glob_match ts s2 = true -> glob_match (GStar :: ts) (s1 ++ s2) = true.
Proof.
  intros H. induction s1 as [|c s1 IH].
  - simpl. destruct s2; now rewrite H.
  - simpl in *. rewrite IH. apply orb_true_r.
Qed.

Lemma translate_recursive_prefix (p : str) :
  translate (lit "**/" ++ p) = GStar :: GLit SLASH :: translate p.
Proof. reflexivity. Qed.

Lemma lstrip_absent (c : char) (s : str) :
  contains c s = false -> lstrip c s = s.
Proof.
  destruct s as [|x s]; [reflexivity|]. unfold contains. simpl.
  intros H. apply orb_false_iff in H as [H _].
  rewrite N.eqb_sym in H. now rewrite H.
Qed.

Lemma contains_rev (c : char) (s : str) :
  contains c (rev s) = contains c s.
Proof.
  unfold contains. induction s as [|x s IH]; [reflexivity|].
  change (rev (x :: s)) with (rev s ++ [x]).
  rewrite existsb_app. simpl.
  rewrite orb_false_r, orb_comm. f_equal. exact IH.
Qed.

Lemma rstrip_absent (c : char) (s : str) :
  contains c s = false -> rstrip c s = s.
Proof.
  intros H. unfold rstrip.
  rewrite lstrip_absent by now rewrite contains_rev.
  apply rev_involutive.
Qed.

Lemma startswith_absent (c : char) (s : str) :
  contains c s = false -> startswith [c] s = false.
Proof.
  destruct s as [|x s]; [reflexivity|]. unfold contains. simpl.
  intros H. apply orb_false_iff in H as [H _].
  now rewrite H.
Qed.

Lemma endswith_absent (c : char) (s : str) :
  contains c s = false -> endswith [c] s = false.
Proof.
  intros H. unfold endswith. simpl rev.
  apply startswith_absent. now rewrite contains_rev.
Qed.

(** Below the root a rule without separator does match by base name: when
    the rule does not end in a single star, every path [dir/base] whose
    base name matches the rule is matched. *)
Lemma bare_rule_matches_below_root
    (pattern dir base : str) (is_dir : bool) :
  contains SLASH pattern = false ->
  endswith [STAR] pattern && negb (endswith [STAR; STAR] pattern) = false ->
  fnmatch base pattern = true ->
  rule_matches (dir ++ [SLASH] ++ base) is_dir pattern = true.
Proof.
  intros Hsep Hstar Hbase.
  assert (Hnorm : normalize_rule pattern = pattern).
  { unfold normalize_rule.
    now rewrite (lstrip_absent _ _ Hsep), (rstrip_absent _ _ Hsep). }
  assert (Hpat : match_pattern_of pattern = lit "**/" ++ pattern).
  { unfold match_pattern_of.
    now rewrite Hnorm, (endswith_absent _ _ Hsep), Hstar, Hsep. }
  unfold rule_matches.
  rewrite (startswith_absent _ _ Hsep), Hpat. simpl andb. cbv iota.
  unfold fnmatch at 1. rewrite translate_recursive_prefix.
  rewrite glob_star_skip; [reflexivity|].
  simpl. exact Hbase.
Qed.

(** C8: a rule without a separator is meant to match by base name at
    every depth, the root included.  The rule [foo.txt] is handed to
    [fnmatch] as [**/foo.txt], which asks for a separator in the path: it
    matches [sub/foo.txt] and does not match the file [foo.txt] in the
    root, whose base name matches the rule; the run with that rule keeps
    [foo.txt] in its output.  The same holds for [*.txt]. *)
Theorem C8_bare_rule_misses_root_file :
  contains SLASH (lit "foo.txt") = false
  /\ fnmatch (lit "foo.txt") (lit "foo.txt") = true
  /\ match_pattern_of (lit "foo.txt") = lit "**/foo.txt"
  /\ rule_matches (lit "foo.txt") false (lit "foo.txt") = false
  /\ rule_matches (lit "sub/foo.txt") false (lit "foo.txt") = true
  /\ rule_matches (lit "foo.txt") false (lit "*.txt") = false
  /\ process_directory pinyin_excerpt
       (with_exclude [lit "foo.txt"] plain_args) project_tree
     = Ok [[lit "build"; lit "out.o"]; [lit "Makefile"]; [lit "foo.txt"]].
Proof. repeat split; vm_compute; reflexivity. Qed.

(** ** Ties of the sort key *)

Lemma strs_eqb_eq (a b : list str) : strs_eqb a b = true <-> a = b.
Proof.
  revert b; induction a as [|x a IH]; intros [|y b]; simpl;
    try (split; [discriminate|congruence]).
  - tauto.
  - rewrite andb_true_iff, str_eqb_eq, IH. split.
    + now intros [-> ->].
    + intros E. injection E as -> ->. tauto.
Qed.

Lemma key_eqb_eq (k1 k2 : sort_key) : key_eqb k1 k2 = true <-> k1 = k2.
Proof.
  destruct k1 as [d1 l1], k2 as [d2 l2]. unfold key_eqb. simpl.
  rewrite andb_true_iff, Z.eqb_eq, strs_eqb_eq. split.
  - now intros [-> ->].
  - intros E. injection E as -> ->. tauto.
Qed.

Lemma split_not_nil (c : char) (s : str) : split c s <> [].
Proof.
  destruct s as [|x s]; simpl; [discriminate|].
  destruct (N.eqb x c); [discriminate|].
  destruct (split c s); discriminate.
Qed.

Lemma map_removelast_last (f : str -> str) (parts : list str) :
  parts <> [] ->
  map f (removelast parts) ++ [f (last parts [])] = map f parts.
Proof.
  intros H.
  rewrite (app_removelast_last [] H) at 3.
  now rewrite map_app.
Qed.

Lemma get_sort_key_parts (lazy_pinyin : str -> result (list str)) (p : path) :
  get_sort_key lazy_pinyin p
  = ((- (Z.of_nat (List.length (split SLASH (rel_path p))) - 1))%Z,
     map (trans lazy_pinyin) (split SLASH (rel_path p))).
Proof.
  unfold get_sort_key.
  now rewrite (map_removelast_last _ (@split_not_nil SLASH (rel_path p))).
Qed.

(** The sort is stable: the items of one key leave it in the order in
    which they entered. *)
Lemma sort_by_key_stable (lazy_pinyin : str -> result (list str))
    (k : sort_key) (files : list path) :
  filter (has_key lazy_pinyin k) (sort_by_key lazy_pinyin files)
  = filter (has_key lazy_pinyin k) files.
Proof.
  induction files as [|x l IH]; [reflexivity|].
  simpl sort_by_key. rewrite filter_insert_by_key.
  - simpl. now rewrite IH.
  - intros y Hy Hlt. unfold has_key in *.
    apply key_eqb_eq in Hy.
    destruct (key_eqb (get_sort_key lazy_pinyin x) k) eqn:Hx; [|reflexivity].
    apply key_eqb_eq in Hx.
    rewrite Hy, Hx, key_ltb_irrefl in Hlt. discriminate.
Qed.

(** Two distinct names of equal depth with the same converted segments have
    the same key; the sort returns them in the order it got them, whichever
    it is, and so not always in the order of the original strings. *)
Lemma C9_equal_keys_for_distinct_paths :
  ma_horse <> ma_mother
  /\ map (trans pinyin_excerpt) (split SLASH (rel_path ma_horse))
     = map (trans pinyin_excerpt) (split SLASH (rel_path ma_mother))
  /\ get_sort_key pinyin_excerpt ma_horse
     = get_sort_key pinyin_excerpt ma_mother
  /\ str_ltb (rel_path ma_mother) (rel_path ma_horse) = true
  /\ sort_by_key pinyin_excerpt [ma_horse; ma_mother] = [ma_horse; ma_mother]
  /\ sort_by_key pinyin_excerpt [ma_mother; ma_horse] = [ma_mother; ma_horse].
Proof. repeat split; vm_compute; (reflexivity || discriminate). Qed.

(** C9, amended: any two paths of equal depth whose converted segments are
    all identical have the same sort key: the key holds no original path
    and does not tell them apart.  The sort is stable, so the paths of one
    key stay in the order in which the traversal produced them. *)
Theorem C9_equal_keys_keep_walk_order
    (lazy_pinyin : str -> result (list str)) (p q : path) :
  map (trans lazy_pinyin) (split SLASH (rel_path p))
  = map (trans lazy_pinyin) (split SLASH (rel_path q)) ->
  get_sort_key lazy_pinyin p = get_sort_key lazy_pinyin q
  /\ forall files,
       filter (has_key lazy_pinyin (get_sort_key lazy_pinyin p))
              (sort_by_key lazy_pinyin files)
       = filter (has_key lazy_pinyin (get_sort_key lazy_pinyin p)) files.
Proof.
  intros Hsegs. split; [|intros files; apply sort_by_key_stable].
  rewrite !get_sort_key_parts, Hsegs.
  apply (f_equal (@List.length str)) in Hsegs.
  rewrite !length_map in Hsegs. now rewrite Hsegs.
Qed.

Lemma C9_equal_keys_witness :
  map (trans pinyin_excerpt) (split SLASH (rel_path ma_horse))
  = map (trans pinyin_excerpt) (split SLASH (rel_path ma_mother))
  /\ get_sort_key pinyin_excerpt ma_horse
     = get_sort_key pinyin_excerpt ma_mother.
Proof.
  split; [reflexivity|].
  apply (proj1 (C9_equal_keys_keep_walk_order pinyin_excerpt
                  ma_horse ma_mother eq_refl)).
Defined.

(** ** The extension filter *)

Lemma accept_needs_extension (a : args) (patterns : list str)
    (dirpath : path) (f : file_info) :
  a_type a <> [] ->
  splitext_ext (f_name f) = [] ->
  accept a patterns dirpath f = Ok false.
Proof.
  intros Htype Hext. unfold accept.
  destruct (should_exclude _ _ _); [reflexivity|].
  unfold type_filter. rewrite Hext.
  destruct (a_type a); [contradiction|reflexivity].
Qed.

(** C10: whenever at least one extension filter is configured, every
    candidate file whose name has no extension is rejected, whatever the
    other criteria say; no such file is in the output of a run. *)
Theorem C10_extension_filter_rejects_bare_names
    (lazy_pinyin : str -> result (list str)) (a : args) (w : world) :
  a_type a <> [] ->
  (forall patterns dirpath f,
      splitext_ext (f_name f) = [] ->
      accept a patterns dirpath f = Ok false)
  /\ (forall files p,
         process_directory lazy_pinyin a w = Ok files ->
         In p files ->
         splitext_ext (last p []) <> []).
Proof.
  intros Htype. split.
  - intros patterns dirpath f. now apply accept_needs_extension.
  - intros files p H Hin Hext.
    destruct (@process_directory_collected _ _ _ _ _ H Hin)
      as (d & f & -> & Hacc).
    rewrite last_last in Hext.
    rewrite (@accept_needs_extension a (all_patterns a w) d f Htype Hext)
      in Hacc.
    discriminate.
Qed.

Lemma C10_extension_filter_witness :
  a_type (with_type [lit "txt"] plain_args) <> []
  /\ accept (with_type [lit "txt"] plain_args) [] []
            (text_file (lit "Makefile") 10) = Ok false
  /\ process_directory pinyin_excerpt (with_type [lit "txt"] plain_args)
       project_tree
     = Ok [[lit "sub"; lit "foo.txt"]; [lit "foo.txt"]].
Proof.
  split; [discriminate|]. split; [|reflexivity].
  apply (proj1 (@C10_extension_filter_rejects_bare_names pinyin_excerpt
                  (with_type [lit "txt"] plain_args) project_tree
                  ltac:(discriminate))).
  reflexivity.
Defined.

(** * Further properties of the pipeline *)

(** ** No exception leaves the filter chain *)

Lemma parse_operator_value_raises (s : str) (e : exn) :
  parse_operator_value s = Raise e -> e = ValueError.
Proof.
  unfold parse_operator_value.
  destruct (span is_opchar s) as [run rest].
  destruct run as [|c run]; [congruence|].
  destruct (line_of rest); [|discriminate].
  destruct (removelast (c :: run)); [congruence|discriminate].
Qed.

Lemma strptime_raises (s : str) (e : exn) :
  strptime s = Raise e -> e = ValueError.
Proof.
  unfold strptime.
  destruct (read_year s) as [[y [|c rest]]|]; try congruence.
  destruct (N.eqb c HYPHEN); [|congruence].
  destruct (first_month (month_alts rest)) as [[[m d] [|x r]]|];
    try congruence.
  destruct (_ && _); [discriminate|congruence].
Qed.

Lemma time_filter_total (s : str) (t : datetime) :
  exists ok, time_filter s t = Ok ok.
Proof.
  unfold time_filter.
  destruct (parse_operator_value s) as [[op date_str]|e] eqn:Hp; simpl.
  - destruct (strptime date_str) as [target|e] eqn:Hd; simpl; [eauto|].
    apply strptime_raises in Hd. subst e. eauto.
  - apply parse_operator_value_raises in Hp. subst e. eauto.
Qed.

Lemma accept_total (a : args) (patterns : list str) (dirpath : path)
    (f : file_info) :
  exists ok, accept a patterns dirpath f = Ok ok.
Proof.
  unfold accept.
  destruct (should_exclude _ _ _); [eauto|].
  destruct (type_filter _ _); simpl; [|eauto].
  assert (Hs : exists ok,
             match given (a_file_size a) with
             | Some arg => size_filter arg (f_size f)
             | None => Ok true
             end = Ok ok).
  { destruct (given (a_file_size a)); [apply size_filter_total|eauto]. }
  destruct Hs as [size_ok ->]. simpl.
  destruct size_ok; simpl; [|eauto].
  assert (Ht : exists ok,
             match given (a_modified_time a) with
             | Some arg => time_filter arg (f_mtime f)
             | None => Ok true
             end = Ok ok).
  { destruct (given (a_modified_time a)); [apply time_filter_total|eauto]. }
  destruct Ht as [time_ok ->]. simpl.
  destruct time_ok; simpl; [|eauto].
  destruct (content_filter a f); simpl; eauto.
Qed.

Lemma visit_files_total (a : args) (patterns : list str) (dirpath : path)
    (entries : list entry) :
  exists found, visit_files a patterns dirpath entries = Ok found.
Proof.
  induction entries as [|e es [more IH]]; simpl; [eauto|].
  destruct e as [f|name islink sub]; [|eauto].
  destruct (kept a (f_name f) (f_islink f)); [|eauto].
  destruct (accept_total a patterns dirpath f) as [ok ->]. simpl.
  rewrite IH. simpl. eauto.
Qed.

(** The walk, one directory at a time. *)
Lemma walk_unfold (a : args) (patterns : list str) (dirpath : path)
    (name : str) (islink : bool) (entries : list entry) :
  walk a patterns dirpath (EDir name islink entries)
  = if depth_reached a dirpath then Ok []
    else here <- visit_files a patterns dirpath entries ;;
         below <- descend a patterns dirpath entries ;;
         Ok (here ++ below).
Proof.
  simpl. destruct (depth_reached a dirpath); [reflexivity|].
  destruct (visit_files a patterns dirpath entries); [simpl|reflexivity].
  match goal with
  | |- bind (?inner entries) _ = _ =>
      assert (H : forall es, inner es = descend a patterns dirpath es)
  end.
  { induction es as [|e es IH]; [reflexivity|].
    destruct e as [f|n l sub]; [exact IH|].
    simpl. destruct (kept a n l); [|exact IH].
    now rewrite IH. }
  now rewrite H.
Qed.

Lemma walk_total (a : args) (patterns : list str) (dir : entry) :
  forall dirpath, exists found, walk a patterns dirpath dir = Ok found.
Proof.
  induction dir as [f|name islink entries IH] using entry_rect_nested;
    intros dirpath; [simpl; eauto|].
  rewrite walk_unfold.
  destruct (depth_reached a dirpath); [eauto|].
  destruct (visit_files_total a patterns dirpath entries) as [here ->].
  assert (Hbelow : exists below, descend a patterns dirpath entries = Ok below).
  { induction IH as [|e es He Hes [below IHes]]; simpl; [eauto|].
    destruct e as [f|n l sub]; [eauto|].
    destruct (kept a n l); [|eauto].
    destruct (He (dirpath ++ [n])) as [first ->]. simpl.
    rewrite IHes. simpl. eauto. }
  destruct Hbelow as [below ->]. simpl. eauto.
Qed.

(** Over a tree whose files can be examined the run ends with a list. *)
Lemma process_directory_total
    (lazy_pinyin : str -> result (list str)) (a : args) (w : world) :
  exists files, process_directory lazy_pinyin a w = Ok files.
Proof.
  unfold process_directory.
  destruct (walk_total a (all_patterns a w) (EDir [] false (w_root w)) [])
    as [found ->].
  simpl. eauto.
Qed.


(** ** What the walk collects *)

Section WalkRelation.

Variable a : args.
Variable patterns : list str.

Lemma visit_files_in (dirpath : path) (entries : list entry) :
  forall here,
    visit_files a patterns dirpath entries = Ok here ->
    forall p,
      In p here <->
      exists f, In (EFile f) entries
                /\ kept a (f_name f) (f_islink f) = true
                /\ accept a patterns dirpath f = Ok true
                /\ p = dirpath ++ [f_name f].
Proof.
  induction entries as [|e es IH]; simpl; intros here H p.
  - injection H as <-. split; [intros []|intros (f & [] & _)].
  - destruct e as [f|name islink sub].
    + destruct (kept a (f_name f) (f_islink f)) eqn:Hkept.
      * destruct (accept a patterns dirpath f) as [ok|] eqn:Hacc;
          [|discriminate].
        simpl in H.
        destruct (visit_files a patterns dirpath es) as [more|];
          [|discriminate].
        simpl in H. injection H as <-.
        specialize (IH more eq_refl p).
        split.
        -- intros Hin.
           assert (Hcases : (ok = true /\ p = dirpath ++ [f_name f])
                            \/ In p more).
           { destruct ok; [destruct Hin as [<-|Hin]|]; auto. }
           destruct Hcases as [[-> ->]|Hin'].
           ++ exists f. auto.
           ++ apply IH in Hin' as (g & Hg & Hrest). exists g. auto.
        -- intros (g & [Hg|Hg] & Hk & Ha & ->).
           ++ injection Hg as ->. rewrite Hacc in Ha. injection Ha as ->.
              now left.
           ++ assert (Hin : In (dirpath ++ [f_name g]) more).
              { apply IH. exists g. auto. }
              destruct ok; [now right|assumption].
      * rewrite (IH here H p). split.
        -- intros (g & Hg & Hrest). exists g. auto.
        -- intros (g & [Hg|Hg] & Hk & Hrest).
           ++ injection Hg as ->. congruence.
           ++ exists g. auto.
    + rewrite (IH here H p). split.
      * intros (g & Hg & Hrest). exists g. auto.
      * intros (g & [Hg|Hg] & Hrest); [discriminate|]. exists g. auto.
Qed.

Lemma descend_in (dirpath : path) (entries : list entry) :
  forall below,
    descend a patterns dirpath entries = Ok below ->
    forall p,
      In p below <->
      exists name islink sub first,
        In (EDir name islink sub) entries
        /\ kept a name islink = true
        /\ walk a patterns (dirpath ++ [name]) (EDir name islink sub)
           = Ok first
        /\ In p first.
Proof.
  induction entries as [|e es IH]; intros below H p.
  - simpl in H. injection H as <-.
    split; [intros []|intros (n & l & sub & first & [] & _)].
  - destruct e as [f|n l sub].
    + change (descend a patterns dirpath es = Ok below) in H.
      rewrite (IH below H p). split.
      * intros (n & l & sub & first & Hin & Hrest).
        exists n, l, sub, first. split; [now right|assumption].
      * intros (n & l & sub & first & [Hin|Hin] & Hrest); [discriminate|].
        exists n, l, sub, first. auto.
    + change (descend a patterns dirpath (EDir n l sub :: es))
        with (if kept a n l
              then first <- walk a patterns (dirpath ++ [n]) (EDir n l sub) ;;
                   others <- descend a patterns dirpath es ;;
                   Ok (first ++ others)
              else descend a patterns dirpath es) in H.
      destruct (kept a n l) eqn:Hkept.
      * destruct (walk a patterns (dirpath ++ [n]) (EDir n l sub))
          as [first|] eqn:Hfirst; [|discriminate].
        simpl in H.
        destruct (descend a patterns dirpath es) as [others|];
          [|discriminate].
        simpl in H. injection H as <-.
        specialize (IH others eq_refl p).
        rewrite in_app_iff, IH. split.
        -- intros [Hin|(n' & l' & sub' & first' & Hin & Hrest)].
           ++ exists n, l, sub, first. split; [now left|auto].
           ++ exists n', l', sub', first'. split; [now right|assumption].
        -- intros (n' & l' & sub' & first' & [Hin|Hin] & Hk & Hw & Hp).
           ++ injection Hin as -> -> ->. rewrite Hfirst in Hw.
              injection Hw as ->. now left.
           ++ right. exists n', l', sub', first'. auto.
      * rewrite (IH below H p). split.
        -- intros (n' & l' & sub' & first' & Hin & Hrest).
           exists n', l', sub', first'. split; [now right|assumption].
        -- intros (n' & l' & sub' & first' & [Hin|Hin] & Hk & Hrest).
           ++ injection Hin as -> -> ->. congruence.
           ++ exists n', l', sub', first'. auto.
Qed.

Lemma walk_selected_dir (dir : entry) :
  forall dirpath found,
    walk a patterns dirpath dir = Ok found ->
    forall p,
      In p found <->
      match dir with
      | EFile _ => False
      | EDir _ _ entries => exists f, selected a patterns dirpath entries p f
      end.
Proof.
  induction dir as [f|name islink entries IH] using entry_rect_nested;
    intros dirpath found H p.
  - simpl in H. injection H as <-. reflexivity.
  - rewrite walk_unfold in H.
    destruct (depth_reached a dirpath) eqn:Hdepth.
    + injection H as <-. split; [intros []|].
      intros (f & Hsel). inversion Hsel; congruence.
    + destruct (visit_files a patterns dirpath entries) as [here|] eqn:Hhere;
        [|discriminate].
      simpl in H.
      destruct (descend a patterns dirpath entries) as [below|] eqn:Hbelow;
        [|discriminate].
      simpl in H. injection H as <-.
      rewrite Forall_forall in IH.
      rewrite in_app_iff, (visit_files_in _ _ Hhere p),
        (descend_in _ _ Hbelow p).
      split.
      * intros [(f & Hin & Hk & Ha & ->)
               |(n & l & sub & first & Hin & Hk & Hw & Hp)].
        -- exists f. now apply selected_here.
        -- apply (IH _ Hin _ _ Hw) in Hp as (f & Hsel).
           exists f. now apply selected_below with n l sub.
      * intros (f & Hsel).
        inversion Hsel as [d es g Hd Hin Hk Ha
                          |d es n l sub q g Hd Hin Hk Hsub]; subst.
        -- left. exists f. auto.
        -- right.
           destruct (walk_total a patterns (EDir n l sub) (dirpath ++ [n]))
             as [first Hw].
           exists n, l, sub, first. repeat split; try assumption.
           apply (IH _ Hin _ _ Hw). now exists f.
Qed.

End WalkRelation.

(** ** The sort: a stable, sorted rearrangement *)

Lemma str_eqb_sym (x y : str) : str_eqb x y = str_eqb y x.
Proof.
  destruct (str_eqb x y) eqn:H.
  - apply str_eqb_eq in H. subst. symmetry. apply str_eqb_refl.
  - destruct (str_eqb y x) eqn:H'; [|reflexivity].
    apply str_eqb_eq in H'. subst. now rewrite str_eqb_refl in H.
Qed.

Lemma str_ltb_asym (x y : str) : str_ltb x y = true -> str_ltb y x = false.
Proof.
  revert y. induction x as [|c x IH]; intros [|d y]; simpl; try discriminate.
  - reflexivity.
  - intros H. apply orb_true_iff in H as [H|H].
    + apply N.ltb_lt in H.
      assert (N.ltb d c = false) as -> by (apply N.ltb_ge; lia).
      assert (N.eqb d c = false) as -> by (apply N.eqb_neq; lia).
      reflexivity.
    + apply andb_true_iff in H as [Hc Hx]. apply N.eqb_eq in Hc. subst d.
      now rewrite N.ltb_irrefl, N.eqb_refl, (IH y Hx).
Qed.

Lemma strs_ltb_asym (k l : list str) :
  strs_ltb k l = true -> strs_ltb l k = false.
Proof.
  revert l. induction k as [|x k IH]; intros [|y l]; simpl; try discriminate.
  - reflexivity.
  - intros H. apply orb_true_iff in H as [H|H].
    + rewrite (str_ltb_asym _ _ H). simpl.
      destruct (str_eqb y x) eqn:E; [|reflexivity].
      apply str_eqb_eq in E. subst. now rewrite str_ltb_irrefl in H.
    + apply andb_true_iff in H as [Hxy Hkl].
      apply str_eqb_eq in Hxy. subst y.
      now rewrite str_ltb_irrefl, str_eqb_refl, (IH l Hkl).
Qed.

Lemma key_ltb_asym (k1 k2 : sort_key) :
  key_ltb k1 k2 = true -> key_ltb k2 k1 = false.
Proof.
  unfold key_ltb. intros H. apply orb_true_iff in H as [H|H].
  - apply Z.ltb_lt in H.
    assert ((fst k2 <? fst k1)%Z = false) as -> by (apply Z.ltb_ge; lia).
    assert ((fst k2 =? fst k1)%Z = false) as -> by (apply Z.eqb_neq; lia).
    reflexivity.
  - apply andb_true_iff in H as [Hfst Hsnd]. apply Z.eqb_eq in Hfst.
    rewrite Hfst, Z.ltb_irrefl, Z.eqb_refl, (strs_ltb_asym _ _ Hsnd).
    reflexivity.
Qed.

Section SortOrder.

Variable lazy_pinyin : str -> result (list str).

Lemma insert_by_key_perm (x : path) (l : list path) :
  Permutation (x :: l) (insert_by_key lazy_pinyin x l).
Proof.
  induction l as [|y l IH]; simpl; [apply Permutation_refl|].
  destruct (key_ltb _ _); [|apply Permutation_refl].
  eapply perm_trans; [apply perm_swap|]. now apply perm_skip.
Qed.

Lemma insert_by_key_sorted (x : path) (l : list path) :
  Sorted (key_le lazy_pinyin) l ->
  Sorted (key_le lazy_pinyin) (insert_by_key lazy_pinyin x l).
Proof.
  induction l as [|y l IH]; simpl; intros Hs.
  - repeat constructor.
  - destruct (key_ltb (get_sort_key lazy_pinyin y)
                      (get_sort_key lazy_pinyin x)) eqn:Hlt.
    + apply Sorted_inv in Hs as [Hl Hhd].
      constructor; [now apply IH|].
      destruct l as [|z l]; simpl.
      * constructor. unfold key_le. now apply key_ltb_asym.
      * destruct (key_ltb (get_sort_key lazy_pinyin z)
                          (get_sort_key lazy_pinyin x)).
        -- constructor. now apply HdRel_inv in Hhd.
        -- constructor. unfold key_le. now apply key_ltb_asym.
    + constructor; [assumption|]. constructor. exact Hlt.
Qed.

Lemma sort_by_key_sorted_id (l : list path) :
  Sorted (key_le lazy_pinyin) l -> sort_by_key lazy_pinyin l = l.
Proof.
  induction l as [|x l IH]; [reflexivity|].
  intros Hs. apply Sorted_inv in Hs as [Hl Hhd].
  simpl. rewrite (IH Hl).
  destruct l as [|y l]; [reflexivity|].
  apply HdRel_inv in Hhd. unfold key_le in Hhd. simpl. now rewrite Hhd.
Qed.

Lemma sort_by_key_perm (files : list path) :
  Permutation files (sort_by_key lazy_pinyin files).
Proof.
  induction files as [|x l IH]; simpl; [constructor|].
  eapply perm_trans; [|apply insert_by_key_perm]. now apply perm_skip.
Qed.

Lemma sort_by_key_in_order (files : list path) :
  Sorted (key_le lazy_pinyin) (sort_by_key lazy_pinyin files).
Proof.
  induction files as [|x l IH]; simpl; [constructor|].
  now apply insert_by_key_sorted.
Qed.

(** X2: the sort rearranges: no file is lost, added or repeated. *)
Theorem sort_by_key_permutation (files : list path) :
  Permutation files (sort_by_key lazy_pinyin files).
Proof. apply sort_by_key_perm. Qed.

(** X3: in the sorted list no file has a key below the key of the file
    before it. *)
Theorem sort_by_key_sorted (files : list path) :
  Sorted (key_le lazy_pinyin) (sort_by_key lazy_pinyin files).
Proof. apply sort_by_key_in_order. Qed.

(** X4: sorting is idempotent: the sort leaves a sorted list as it is. *)
Theorem sort_by_key_idempotent (files : list path) :
  sort_by_key lazy_pinyin (sort_by_key lazy_pinyin files)
  = sort_by_key lazy_pinyin files.
Proof. apply sort_by_key_sorted_id, sort_by_key_in_order. Qed.

Lemma in_sort_by_key_iff (p : path) (files : list path) :
  In p (sort_by_key lazy_pinyin files) <-> In p files.
Proof.
  split.
  - apply in_sort_by_key.
  - apply Permutation_in, sort_by_key_perm.
Qed.

End SortOrder.

(** ** The output of a run *)

Lemma selected_shape (a : args) (patterns : list str) (dirpath : path)
    (entries : list entry) (p : path) (f : file_info) :
  selected a patterns dirpath entries p f ->
  exists rest,
    p = dirpath ++ rest ++ [f_name f]
    /\ Forall (fun name =>
                 a_include_invisible a || negb (startswith [DOT] name) = true)
              (rest ++ [f_name f])
    /\ depth_reached a (dirpath ++ rest) = false
    /\ accept a patterns (dirpath ++ rest) f = Ok true.
Proof.
  induction 1 as [d es f Hd Hin Hk Ha|d es n l sub p f Hd Hin Hk Hsub IH].
  - exists []. rewrite app_nil_r. simpl. repeat split; try assumption.
    constructor; [|constructor].
    unfold kept in Hk. now apply andb_true_iff in Hk as [Hk _].
  - destruct IH as (rest & -> & Hvis & Hdepth & Hacc).
    exists (n :: rest). rewrite <- !app_assoc in *. simpl in *.
    repeat split; try assumption.
    constructor; [|assumption].
    unfold kept in Hk. now apply andb_true_iff in Hk as [Hk _].
Qed.

Lemma process_directory_in
    (lazy_pinyin : str -> result (list str)) (a : args) (w : world)
    (files : list path) (p : path) :
  process_directory lazy_pinyin a w = Ok files ->
  (In p files <->
   (exists f, selected a (all_patterns a w) [] (w_root w) p f)
   /\ (a_recursive a = false -> in_root p = true)).
Proof.
  unfold process_directory. intros H.
  destruct (walk a (all_patterns a w) [] (EDir [] false (w_root w)))
    as [found|] eqn:Hwalk; [|discriminate].
  simpl in H. injection H as <-.
  rewrite in_sort_by_key_iff.
  pose proof (@walk_selected_dir a (all_patterns a w) _ _ _ Hwalk p) as Hsel.
  simpl in Hsel.
  destruct (a_recursive a).
  - rewrite Hsel. split; [intros Hs; split; [assumption|discriminate]|tauto].
  - rewrite filter_In, Hsel. split; intros [Hs Hr]; auto.
Qed.

(** X5: the output of a run is exactly the set of files the walk reaches
    through kept directories within the depth limit and the filter chain
    accepts, restricted to the files of the root when the run is not
    recursive. *)
Theorem process_directory_output
    (lazy_pinyin : str -> result (list str)) (a : args) (w : world)
    (files : list path) (p : path) :
  process_directory lazy_pinyin a w = Ok files ->
  (In p files <->
   (exists f, selected a (all_patterns a w) [] (w_root w) p f)
   /\ (a_recursive a = false -> in_root p = true)).
Proof. apply process_directory_in. Qed.

Lemma process_directory_shape
    (lazy_pinyin : str -> result (list str)) (a : args) (w : world)
    (files : list path) (p : path) :
  process_directory lazy_pinyin a w = Ok files ->
  In p files ->
  exists dirpath f,
    p = dirpath ++ [f_name f]
    /\ Forall (fun name =>
                 a_include_invisible a || negb (startswith [DOT] name) = true)
              p
    /\ depth_reached a dirpath = false
    /\ accept a (all_patterns a w) dirpath f = Ok true
    /\ (a_recursive a = false -> dirpath = []).
Proof.
  intros H Hin.
  apply (process_directory_in _ _ _ p H) in Hin as [(f & Hsel) Hroot].
  apply selected_shape in Hsel as (rest & -> & Hvis & Hdepth & Hacc).
  simpl in *. exists rest, f. repeat split; try assumption.
  intros Hrec. specialize (Hroot Hrec). unfold in_root in Hroot.
  rewrite removelast_last in Hroot. now destruct rest.
Qed.

(** X6: unless hidden files are included, no segment of an output path
    begins with a dot: hidden files and everything below a hidden
    directory stay out. *)
Theorem process_directory_skips_hidden
    (lazy_pinyin : str -> result (list str)) (a : args) (w : world)
    (files : list path) (p : path) :
  a_include_invisible a = false ->
  process_directory lazy_pinyin a w = Ok files ->
  In p files ->
  Forall (fun name => startswith [DOT] name = false) p.
Proof.
  intros Hinv H Hin.
  destruct (@process_directory_shape _ _ _ _ _ H Hin)
    as (d & f & _ & Hvis & _).
  eapply Forall_impl; [|exact Hvis].
  intros name Hname. rewrite Hinv in Hname. simpl in Hname.
  now apply negb_true_iff in Hname.
Qed.

Lemma count_sep_concat (dirpath : path) :
  (List.length dirpath
   <= count_occ N.eq_dec
        (List.concat (map (fun name => SLASH :: name) dirpath)) SLASH)%nat.
Proof.
  induction dirpath as [|name rest IH]; [apply Nat.le_refl|].
  change (List.concat (map (fun n => SLASH :: n) (name :: rest)))
    with (SLASH :: name ++ List.concat (map (fun n => SLASH :: n) rest)).
  rewrite count_occ_cons_eq by reflexivity.
  rewrite count_occ_app. simpl List.length.
  apply le_n_S. eapply Nat.le_trans; [exact IH|]. apply Nat.le_add_l.
Qed.

Lemma count_sep_join (dirpath : path) :
  (List.length dirpath
   <= S (count_occ N.eq_dec (join [SLASH] dirpath) SLASH))%nat.
Proof.
  induction dirpath as [|name rest IH]; [apply Nat.le_0_l|].
  destruct rest as [|next rest]; [simpl; apply le_n_S, Nat.le_0_l|].
  change (join [SLASH] (name :: next :: rest))
    with (name ++ SLASH :: join [SLASH] (next :: rest)).
  rewrite count_occ_app, count_occ_cons_eq by reflexivity.
  simpl List.length in *.
  apply le_n_S. eapply Nat.le_trans; [exact IH|].
  rewrite Nat.add_succ_r. apply le_n_S, Nat.le_add_l.
Qed.

Lemma current_depth_length (root_is_slash : bool) (dirpath : path) :
  (Z.of_nat (List.length dirpath)
   <= current_depth root_is_slash dirpath
      + (if root_is_slash then 1 else 0))%Z.
Proof.
  unfold current_depth, dirpath_suffix. destruct root_is_slash.
  - pose proof (count_sep_join dirpath) as H. apply inj_le in H.
    rewrite Nat2Z.inj_succ in H. unfold Z.succ in H. exact H.
  - pose proof (count_sep_concat dirpath) as H. apply inj_le in H.
    rewrite Z.add_0_r. exact H.
Qed.

(** X7: with a depth limit [d] no output path has more than [d]
    segments, or [d + 1] when the directory walked is the root [/] of the
    file system, below which the first level counts as depth 0 again. *)
Theorem process_directory_depth_bound
    (lazy_pinyin : str -> result (list str)) (a : args) (w : world)
    (d : Z) (files : list path) (p : path) :
  a_max_depth a = Some d ->
  process_directory lazy_pinyin a w = Ok files ->
  In p files ->
  (Z.of_nat (List.length p)
   <= d + (if a_directory_is_root a then 1 else 0))%Z.
Proof.
  intros Hmax H Hin.
  destruct (@process_directory_shape _ _ _ _ _ H Hin)
    as (dp & f & -> & _ & Hdepth & _).
  unfold depth_reached in Hdepth. rewrite Hmax in Hdepth.
  rewrite Z.geb_leb in Hdepth. apply Z.leb_gt in Hdepth.
  pose proof (current_depth_length (a_directory_is_root a) dp).
  rewrite length_app. simpl List.length.
  rewrite Nat2Z.inj_add. simpl Z.of_nat. lia.
Qed.

(** X8: a run that is not recursive lists files of the root only: every
    output path is a single name. *)
Theorem process_directory_non_recursive
    (lazy_pinyin : str -> result (list str)) (a : args) (w : world)
    (files : list path) (p : path) :
  a_recursive a = false ->
  process_directory lazy_pinyin a w = Ok files ->
  In p files ->
  exists name, p = [name].
Proof.
  intros Hrec H Hin.
  destruct (@process_directory_shape _ _ _ _ _ H Hin)
    as (dp & f & -> & _ & _ & _ & Hroot).
  rewrite (Hroot Hrec). now exists (f_name f).
Qed.

Lemma accept_true_inv (a : args) (patterns : list str) (dirpath : path)
    (f : file_info) :
  accept a patterns dirpath f = Ok true ->
  should_exclude (rel_path (dirpath ++ [f_name f])) false patterns = false
  /\ type_filter (a_type a) (f_name f) = true
  /\ content_filter a f = true
  /\ is_text_file f = true.
Proof.
  unfold accept.
  destruct (should_exclude _ _ _); [discriminate|].
  destruct (type_filter _ _); simpl; [|discriminate].
  destruct (match given (a_file_size a) with
            | Some arg => size_filter arg (f_size f)
            | None => Ok true
            end) as [[|]|]; simpl; try discriminate.
  destruct (match given (a_modified_time a) with
            | Some arg => time_filter arg (f_mtime f)
            | None => Ok true
            end) as [[|]|]; simpl; try discriminate.
  destruct (content_filter a f); simpl; [|discriminate].
  intros H. injection H as ->. auto.
Qed.

(** X9: every file of the output is classified as text: its MIME type
    begins with [text/] or is [application/json] or [application/xml],
    whatever the other options are. *)
Theorem process_directory_lists_text_only
    (lazy_pinyin : str -> result (list str)) (a : args) (w : world)
    (files : list path) (p : path) :
  process_directory lazy_pinyin a w = Ok files ->
  In p files ->
  exists f,
    selected a (all_patterns a w) [] (w_root w) p f
    /\ (startswith (lit "text/") (f_mime f) = true
        \/ f_mime f = lit "application/json"
        \/ f_mime f = lit "application/xml").
Proof.
  intros H Hin.
  apply (process_directory_in _ _ _ p H) in Hin as [(f & Hsel) _].
  exists f. split; [assumption|].
  apply selected_shape in Hsel as (rest & _ & _ & _ & Hacc).
  apply accept_true_inv in Hacc as (_ & _ & _ & Htext).
  unfold is_text_file in Htext.
  destruct (startswith (lit "text/") (f_mime f)); [now left|right].
  destruct (str_eqb (f_mime f) (lit "application/json")) eqn:Hj.
  - left. now apply str_eqb_eq.
  - destruct (str_eqb (f_mime f) (lit "application/xml")) eqn:Hx;
      [|discriminate].
    right. now apply str_eqb_eq.
Qed.

(** X10: with extension filters configured, the extension of every output
    file, in lower case and without its first character (the dot), is one
    of the configured extensions in lower case without leading dots. *)
Theorem process_directory_extension_filter
    (lazy_pinyin : str -> result (list str)) (a : args) (w : world)
    (files : list path) (p : path) :
  a_type a <> [] ->
  process_directory lazy_pinyin a w = Ok files ->
  In p files ->
  exists t,
    In t (a_type a)
    /\ splitext_ext (last p []) <> []
    /\ tl (lower (splitext_ext (last p []))) = lstrip DOT (lower t).
Proof.
  intros Htype H Hin.
  destruct (@process_directory_shape _ _ _ _ _ H Hin)
    as (dp & f & -> & _ & _ & Hacc & _).
  apply accept_true_inv in Hacc as (_ & Hty & _).
  rewrite last_last. unfold type_filter in Hty.
  destruct (a_type a) as [|t0 ts] eqn:Hts; [contradiction|].
  destruct (lower (splitext_ext (f_name f))) as [|c ext1] eqn:Hext;
    [discriminate|].
  apply existsb_exists in Hty as (x & Hx & Heq).
  apply in_map_iff in Hx as (t & <- & Ht).
  apply str_eqb_eq in Heq.
  exists t. repeat split; try assumption.
  intros E. rewrite E in Hext. discriminate.
Qed.

(** ** The rule set *)

Lemma should_exclude_exists (rel : str) (is_dir : bool) (patterns : list str) :
  should_exclude rel is_dir patterns = true <->
  exists pattern, In pattern patterns /\ rule_matches rel is_dir pattern = true.
Proof.
  induction patterns as [|q qs IH]; simpl.
  - split; [discriminate|intros (x & [] & _)].
  - destruct (rule_matches rel is_dir q) eqn:Hq.
    + split; [|reflexivity]. intros _. exists q. auto.
    + rewrite IH. split.
      * intros (x & Hx & Hm). exists x. auto.
      * intros (x & [->|Hx] & Hm); [congruence|]. exists x. auto.
Qed.

(** X11: a path is excluded exactly when some rule of the set matches
    it: the rules have equal strength, their order and their source (the
    command line or [.gitignore]) do not matter, and no rule takes an
    exclusion back. *)
Theorem should_exclude_any_rule (rel : str) (is_dir : bool)
    (patterns : list str) :
  should_exclude rel is_dir patterns = true <->
  exists pattern, In pattern patterns /\ rule_matches rel is_dir pattern = true.
Proof. apply should_exclude_exists. Qed.

Lemma should_exclude_incl (rel : str) (is_dir : bool) (fewer more : list str) :
  incl fewer more ->
  should_exclude rel is_dir more = false ->
  should_exclude rel is_dir fewer = false.
Proof.
  intros Hincl Hmore.
  destruct (should_exclude rel is_dir fewer) eqn:Hfewer; [|reflexivity].
  apply should_exclude_exists in Hfewer as (x & Hx & Hm).
  assert (should_exclude rel is_dir more = true) as E.
  { apply should_exclude_exists. exists x. auto. }
  congruence.
Qed.

Lemma accept_split (a : args) (patterns : list str) (dirpath : path)
    (f : file_info) :
  accept a patterns dirpath f
  = if should_exclude (rel_path (dirpath ++ [f_name f])) false patterns
    then Ok false
    else accept a [] dirpath f.
Proof. reflexivity. Qed.

Lemma selected_fewer_rules (a : args) (fewer more exclude exclude' : list str)
    (dirpath : path) (entries : list entry) (p : path) (f : file_info) :
  incl fewer more ->
  selected (with_exclude exclude a) more dirpath entries p f ->
  selected (with_exclude exclude' a) fewer dirpath entries p f.
Proof.
  intros Hincl.
  induction 1 as [d es f Hd Hin Hk Ha|d es n l sub p f Hd Hin Hk Hsub IH].
  - apply selected_here; try assumption.
    rewrite accept_split in Ha. rewrite accept_split.
    destruct (should_exclude _ false more) eqn:Hm; [discriminate|].
    rewrite (should_exclude_incl _ _ Hincl Hm). exact Ha.
  - now apply selected_below with n l sub.
Qed.

(** X12: adding exclusion rules never adds a file: the output of a run
    with more rules is contained in the output of the run with fewer. *)
Theorem process_directory_more_rules_fewer_files
    (lazy_pinyin : str -> result (list str)) (a : args) (w : world)
    (fewer more : list str) (files_fewer files_more : list path) :
  incl fewer more ->
  process_directory lazy_pinyin (with_exclude fewer a) w = Ok files_fewer ->
  process_directory lazy_pinyin (with_exclude more a) w = Ok files_more ->
  incl files_more files_fewer.
Proof.
  intros Hincl Hfewer Hmore p Hin.
  apply (process_directory_in _ _ _ p Hmore) in Hin as [(f & Hsel) Hroot].
  apply (process_directory_in _ _ _ p Hfewer).
  split; [|exact Hroot].
  exists f. eapply selected_fewer_rules; [|exact Hsel].
  unfold all_patterns. simpl.
  apply incl_app; [now apply incl_appl|apply incl_appr, incl_refl].
Qed.

(** ** [parse_gitignore] *)

Lemma gitignore_patterns_cons (line : str) (rest : list str) :
  gitignore_patterns (line :: rest)
  = match strip line with
    | [] => gitignore_patterns rest
    | _ :: _ =>
        if startswith (lit "#") (strip line) then gitignore_patterns rest
        else strip line :: gitignore_patterns rest
    end.
Proof. reflexivity. Qed.

Lemma gitignore_patterns_in (file_lines : list str) (p : str) :
  In p (gitignore_patterns file_lines) <->
  p <> [] /\ startswith (lit "#") p = false
  /\ exists line, In line file_lines /\ p = strip line.
Proof.
  induction file_lines as [|line rest IH].
  - split; [intros []|intros (_ & _ & x & [] & _)].
  - rewrite gitignore_patterns_cons.
    assert (Hskip : (strip line = []
                     \/ startswith (lit "#") (strip line) = true) ->
                    (In p (gitignore_patterns rest) <->
                     p <> [] /\ startswith (lit "#") p = false
                     /\ exists x, In x (line :: rest) /\ p = strip x)).
    { intros Hline. rewrite IH. split.
      - intros (Hp & Hc & x & Hx & E). repeat split; try assumption.
        exists x. split; [now right|assumption].
      - intros (Hp & Hc & x & [<-|Hx] & E).
        + subst p. destruct Hline; congruence.
        + repeat split; try assumption. now exists x. }
    destruct (strip line) as [|c s] eqn:Hline; [apply Hskip; now left|].
    destruct (startswith (lit "#") (c :: s)) eqn:Hcomment;
      [apply Hskip; now right|].
    split.
    + intros [<-|Hin].
      * repeat split; [discriminate|assumption|].
        exists line. split; [now left|now symmetry].
      * apply IH in Hin as (Hp & Hc & x & Hx & E).
        repeat split; try assumption.
        exists x. split; [now right|assumption].
    + intros (Hp & Hc & x & [<-|Hx] & E).
      * left. congruence.
      * right. apply IH. repeat split; try assumption. now exists x.
Qed.

(** X13: the patterns read from [.gitignore] are exactly the lines of the
    file, stripped of surrounding white space, that are then neither empty
    nor begin with [#]; a missing file gives no pattern. *)
Theorem parse_gitignore_patterns (file : option (list str)) (p : str) :
  In p (parse_gitignore file) <->
  exists file_lines line,
    file = Some file_lines /\ In line file_lines /\ p = strip line
    /\ p <> [] /\ startswith (lit "#") p = false.
Proof.
  destruct file as [file_lines|]; simpl.
  - rewrite gitignore_patterns_in. split.
    + intros (Hp & Hc & line & Hin & E). exists file_lines, line. auto.
    + intros (ls & line & E & Hin & Hs & Hp & Hc). injection E as <-.
      eauto.
  - split; [intros []|intros (ls & line & E & _); discriminate].
Qed.

(** ** [parse_operator_value] *)

Lemma span_app (f : char -> bool) (run : str) (c : char) (rest : str) :
  forallb f run = true -> f c = false ->
  span f (run ++ c :: rest) = (run, c :: rest).
Proof.
  intros Hrun Hc. induction run as [|x run IH]; simpl.
  - now rewrite Hc.
  - simpl in Hrun. apply andb_true_iff in Hrun as [Hx Hrun].
    now rewrite Hx, (IH Hrun).
Qed.

Lemma span_spec (f : char -> bool) (s run rest : str) :
  span f s = (run, rest) ->
  s = run ++ rest /\ forallb f run = true.
Proof.
  revert run rest. induction s as [|c s IH]; simpl; intros run rest H.
  - injection H as <- <-. auto.
  - destruct (f c) eqn:Hc.
    + destruct (span f s) as [r t]. injection H as <- <-.
      destruct (IH r t eq_refl) as [-> Hr]. simpl. now rewrite Hc.
    + injection H as <- <-. auto.
Qed.

Lemma line_of_cons (c : char) (s : str) :
  line_of (c :: s) = if N.eqb c NEWLINE then [] else c :: line_of s.
Proof.
  unfold line_of. cbn [span].
  destruct (N.eqb c NEWLINE); cbn [negb]; [reflexivity|].
  now destruct (span _ s).
Qed.

Lemma contains_cons (x c : char) (s : str) :
  contains x (c :: s) = N.eqb x c || contains x s.
Proof. reflexivity. Qed.

Lemma line_of_whole (s : str) :
  contains NEWLINE s = false -> line_of s = s.
Proof.
  induction s as [|c s IH]; [reflexivity|].
  rewrite contains_cons, line_of_cons. intros H.
  apply orb_false_iff in H as [Hc Hs].
  rewrite N.eqb_sym in Hc. now rewrite Hc, (IH Hs).
Qed.

Lemma line_of_spec (s : str) :
  contains NEWLINE (line_of s) = false /\ startswith (line_of s) s = true.
Proof.
  induction s as [|c s [IH1 IH2]]; [auto|].
  rewrite line_of_cons.
  destruct (N.eqb c NEWLINE) eqn:Hc; [auto|].
  rewrite contains_cons, N.eqb_sym, Hc, IH1.
  cbn [startswith]. now rewrite N.eqb_refl, IH2.
Qed.

Lemma startswith_app (prefix rest : str) :
  startswith prefix (prefix ++ rest) = true.
Proof.
  induction prefix as [|c p IH]; [reflexivity|].
  simpl. now rewrite N.eqb_refl.
Qed.

Lemma startswith_app_prefix (a b rest : str) :
  startswith b rest = true -> startswith (a ++ b) (a ++ rest) = true.
Proof.
  intros H. induction a as [|c a IH]; [assumption|].
  simpl. now rewrite N.eqb_refl.
Qed.

(** X14: a string made of a run of the characters [<], [>], [=] and a
    value that begins with another character and holds no line break is
    split into exactly that run and that value; so it is for each of the
    five operators. *)
Theorem parse_operator_value_round_trip (op value : str) :
  op <> [] ->
  forallb is_opchar op = true ->
  starts_with_opchar value = false ->
  value <> [] ->
  contains NEWLINE value = false ->
  parse_operator_value (op ++ value) = Ok (op, value).
Proof.
  intros Hop Hrun Hhead Hvalue Hnl.
  destruct value as [|c v]; [contradiction|]. simpl in Hhead.
  unfold parse_operator_value.
  rewrite (span_app is_opchar op c v Hrun Hhead).
  destruct op as [|o op]; [contradiction|].
  now rewrite (line_of_whole _ Hnl).
Qed.

Lemma parse_operator_value_round_trip_witness :
  lit ">=" <> [] /\ forallb is_opchar (lit ">=") = true
  /\ starts_with_opchar (lit "10K") = false /\ lit "10K" <> []
  /\ contains NEWLINE (lit "10K") = false
  /\ parse_operator_value (lit ">=" ++ lit "10K") = Ok (lit ">=", lit "10K").
Proof.
  repeat (split; [first [reflexivity|discriminate]|]).
  apply (@parse_operator_value_round_trip (lit ">=") (lit "10K"));
    first [reflexivity|discriminate].
Defined.

Lemma forallb_last (f : char -> bool) (s : str) (d : char) :
  s <> [] -> forallb f s = true -> f (last s d) = true.
Proof.
  intros Hs Hall. rewrite forallb_forall in Hall.
  apply Hall. destruct s as [|c s]; [contradiction|].
  rewrite (app_removelast_last d Hs) at 2.
  apply in_or_app. right. now left.
Qed.

(** X15: whenever the parse succeeds, the operator is a non-empty run of
    the characters [<], [>], [=], the value is not empty and holds no line
    break, and operator and value together begin the filter string. *)
Theorem parse_operator_value_shape (pattern op value : str) :
  parse_operator_value pattern = Ok (op, value) ->
  op <> [] /\ forallb is_opchar op = true
  /\ value <> [] /\ contains NEWLINE value = false
  /\ startswith (op ++ value) pattern = true.
Proof.
  unfold parse_operator_value.
  destruct (span is_opchar pattern) as [run rest] eqn:Hspan.
  apply span_spec in Hspan as [-> Hrun].
  destruct run as [|c run]; [discriminate|].
  destruct (line_of_spec rest) as [Hnl Hpre].
  destruct (line_of rest) as [|x l] eqn:Hline.
  - destruct (removelast (c :: run)) as [|o os] eqn:Hrem; [discriminate|].
    intros H. injection H as <- <-.
    assert (Hne : c :: run <> []) by discriminate.
    assert (Hsplit : c :: run = (o :: os) ++ [last (c :: run) 0%N]).
    { rewrite <- Hrem. now apply app_removelast_last. }
    repeat split.
    + discriminate.
    + rewrite Hsplit in Hrun. rewrite forallb_app in Hrun.
      now apply andb_true_iff in Hrun as [Hrun _].
    + discriminate.
    + pose proof (forallb_last is_opchar 0%N Hne Hrun) as Hlast.
      rewrite contains_cons. change (contains NEWLINE []) with false.
      rewrite orb_false_r.
      assert (E : N.eqb NEWLINE (last (c :: run) 0%N) = false).
      { destruct (N.eqb NEWLINE (last (c :: run) 0%N)) eqn:E; [|reflexivity].
        apply N.eqb_eq in E. rewrite <- E in Hlast. discriminate. }
      exact E.
    + change (startswith ((o :: os) ++ [last (c :: run) 0%N])
                ((c :: run) ++ rest) = true).
      rewrite <- Hsplit. apply startswith_app.
  - intros H. injection H as <- <-.
    repeat split; try assumption; try discriminate.
    now apply startswith_app_prefix.
Qed.

Lemma parse_operator_value_shape_witness :
  parse_operator_value (lit "<=500B") = Ok (lit "<=", lit "500B")
  /\ startswith (lit "<=" ++ lit "500B") (lit "<=500B") = true.
Proof.
  split; [reflexivity|].
  apply (@parse_operator_value_shape (lit "<=500B") (lit "<=") (lit "500B")).
  reflexivity.
Defined.

(** ** The size filter on a value that parses *)

Lemma str_eqb_neq (a b : str) : a <> b -> str_eqb a b = false.
Proof.
  intros H. destruct (str_eqb a b) eqn:E; [|reflexivity].
  apply str_eqb_eq in E. contradiction.
Qed.

(** X16: when the size value parses, a file passes the size filter
    exactly when its size stands in the stated relation to the target; an
    operator run that is none of [>=], [<=], [>], [<], [==] (such as [=]
    or [<>]) states no relation and lets every file pass. *)
Theorem size_filter_decision (file_size_arg op : str) (target n : Z) :
  parse_size file_size_arg = Ok (op, target) ->
  (size_filter file_size_arg n = Ok true <->
   (op = lit ">=" -> (target <= n)%Z)
   /\ (op = lit "<=" -> (n <= target)%Z)
   /\ (op = lit ">" -> (target < n)%Z)
   /\ (op = lit "<" -> (n < target)%Z)
   /\ (op = lit "==" -> n = target)).
Proof.
  intros Hparse. unfold size_filter. rewrite Hparse. unfold size_compare.
  destruct (str_eqb op (lit ">=")) eqn:E1.
  { apply str_eqb_eq in E1. subst op. simpl andb.
    destruct (Z.geb_spec n target); simpl; split.
    - intros _. repeat split; intros E; try discriminate. lia.
    - reflexivity.
    - discriminate.
    - intros (Hop & _). specialize (Hop eq_refl). lia. }
  destruct (str_eqb op (lit "<=")) eqn:E2.
  { apply str_eqb_eq in E2. subst op. simpl andb.
    destruct (Z.leb_spec n target); simpl; split.
    - intros _. repeat split; intros E; try discriminate. lia.
    - reflexivity.
    - discriminate.
    - intros (_ & Hop & _). specialize (Hop eq_refl). lia. }
  destruct (str_eqb op (lit ">")) eqn:E3.
  { apply str_eqb_eq in E3. subst op. simpl andb.
    destruct (Z.gtb_spec n target); simpl; split.
    - intros _. repeat split; intros E; try discriminate. lia.
    - reflexivity.
    - discriminate.
    - intros (_ & _ & Hop & _). specialize (Hop eq_refl). lia. }
  destruct (str_eqb op (lit "<")) eqn:E4.
  { apply str_eqb_eq in E4. subst op. simpl andb.
    destruct (Z.ltb_spec n target); simpl; split.
    - intros _. repeat split; intros E; try discriminate. lia.
    - reflexivity.
    - discriminate.
    - intros (_ & _ & _ & Hop & _). specialize (Hop eq_refl). lia. }
  destruct (str_eqb op (lit "==")) eqn:E5.
  { apply str_eqb_eq in E5. subst op. simpl andb.
    destruct (Z.eqb_spec n target); simpl; split.
    - intros _. repeat split; intros E; try discriminate. assumption.
    - reflexivity.
    - discriminate.
    - intros (_ & _ & _ & _ & Hop). specialize (Hop eq_refl). contradiction. }
  simpl. split; [|reflexivity]. intros _.
  repeat split; intros ->; rewrite str_eqb_refl in *; discriminate.
Qed.

Lemma size_filter_decision_witness :
  parse_size (lit "=5") = Ok (lit "=", 5%Z)
  /\ size_filter (lit "=5") 7 = Ok true.
Proof.
  split; [reflexivity|].
  apply (proj2 (@size_filter_decision (lit "=5") (lit "=") 5 7 eq_refl)).
  repeat split; intros E; discriminate E.
Defined.

Lemma index_nth (c : char) (s : str) (i : nat) :
  index c s = Ok i -> nth_error s i = Some c.
Proof.
  revert i. induction s as [|x s IH]; intros i; simpl; [discriminate|].
  destruct (N.eqb x c) eqn:E.
  - intros H. injection H as <-. apply N.eqb_eq in E. now subst.
  - destruct (index c s) as [j|]; simpl; [|discriminate].
    intros H. injection H as <-. now apply IH.
Qed.

(** X17: a size value whose last letter, in upper case, is one of K, M, G,
    T, P is the number before the letter times 1024 to the power of the
    letter's rank: K is 1024, M is 1024 squared, and so on to P; lower
    case letters count as well. *)
Theorem parse_size_unit (file_size_arg op value number : str)
    (unit : char) (i : nat) (n : Z) :
  parse_operator_value file_size_arg = Ok (op, value) ->
  upper value = number ++ [unit] ->
  index unit (lit "KMGTP") = Ok i ->
  int_of_str number = Ok n ->
  parse_size file_size_arg = Ok (op, (n * 1024 ^ Z.of_nat (S i))%Z).
Proof.
  intros Hparse Hupper Hunit Hint.
  unfold parse_size. rewrite Hparse. simpl bind. cbv beta iota.
  rewrite Hupper.
  destruct (number ++ [unit]) as [|c0 s0] eqn:E;
    [now destruct number|].
  rewrite <- E. rewrite last_last, removelast_last.
  apply index_nth in Hunit.
  assert (Hcases : (i < 5)%nat).
  { apply (proj1 (nth_error_Some (lit "KMGTP") i)).
    rewrite Hunit. discriminate. }
  destruct i as [|[|[|[|[|i]]]]]; [..|lia];
    simpl in Hunit; injection Hunit as <-;
    cbn [contains existsb]; simpl; rewrite Hint; reflexivity.
Qed.

Lemma parse_size_unit_witness :
  parse_operator_value (lit "<2m") = Ok (lit "<", lit "2m")
  /\ upper (lit "2m") = lit "2" ++ [ch "M"]
  /\ index (ch "M") (lit "KMGTP") = Ok 1%nat
  /\ int_of_str (lit "2") = Ok 2%Z
  /\ parse_size (lit "<2m") = Ok (lit "<", (2 * 1024 ^ 2)%Z).
Proof.
  repeat (split; [reflexivity|]).
  apply (@parse_size_unit (lit "<2m") (lit "<") (lit "2m") (lit "2")
           (ch "M") 1 2); reflexivity.
Defined.

(** ** Rules made of separators *)

Lemma lstrip_repeat (c : char) (n : nat) : lstrip c (repeat c n) = [].
Proof.
  induction n as [|n IH]; [reflexivity|].
  cbn [repeat lstrip]. now rewrite N.eqb_refl.
Qed.

Lemma rev_repeat_char (c : char) (n : nat) : rev (repeat c n) = repeat c n.
Proof.
  induction n as [|n IH]; [reflexivity|].
  cbn [repeat rev]. rewrite IH. symmetry. apply repeat_cons.
Qed.

(** X18: a rule that consists of separators only, such as [/], excludes
    nothing: it matches no relative path, file or directory. *)
Theorem separator_rule_matches_nothing
    (n : nat) (c : char) (rest : str) (is_dir : bool) :
  c <> SLASH ->
  rule_matches (c :: rest) is_dir (repeat SLASH (S n)) = false.
Proof.
  intros Hc. apply N.eqb_neq in Hc.
  assert (Hnorm : normalize_rule (repeat SLASH (S n)) = []).
  { unfold normalize_rule. now rewrite lstrip_repeat. }
  assert (Hend : endswith [SLASH] (repeat SLASH (S n)) = true).
  { unfold endswith. now rewrite rev_repeat_char. }
  assert (Hpat : match_pattern_of (repeat SLASH (S n)) = lit "/**").
  { unfold match_pattern_of. now rewrite Hnorm, Hend. }
  unfold rule_matches. rewrite Hnorm, Hpat.
  cbn [str_eqb]. rewrite andb_false_r.
  change (fnmatch (c :: rest) (lit "/**"))
    with (N.eqb c SLASH && glob_match [GStar] rest).
  rewrite Hc. cbn [andb].
  change (fnmatch ((c :: rest) ++ [SLASH]) (lit "/**" ++ lit "/*"))
    with (N.eqb c SLASH
          && glob_match [GStar; GLit SLASH; GStar] (rest ++ [SLASH])).
  rewrite Hc. now destruct is_dir.
Qed.

Lemma separator_rule_witness :
  ch "a" <> SLASH
  /\ rule_matches (lit "a/b") true (lit "//") = false.
Proof.
  split; [discriminate|].
  apply (@separator_rule_matches_nothing 1 (ch "a") (lit "/b") true).
  discriminate.
Defined.

(** ** [get_file_language] *)

Lemma split_cons_sep (c : char) (s : str) : split c (c :: s) = [] :: split c s.
Proof. cbn [split]. now rewrite N.eqb_refl. Qed.

Lemma split_app_sep (c : char) (s e : str) :
  split c (s ++ c :: e) = split c s ++ split c e.
Proof.
  induction s as [|x s IH].
  - apply split_cons_sep.
  - cbn [app split]. destruct (N.eqb x c); rewrite IH; [reflexivity|].
    destruct (split c s) as [|p ps] eqn:Hs; [|reflexivity].
    now apply split_not_nil in Hs.
Qed.

Lemma last_app_right (A : Type) (l1 l2 : list A) (d : A) :
  l2 <> [] -> last (l1 ++ l2) d = last l2 d.
Proof.
  intros H. induction l1 as [|x l1 IH]; [reflexivity|].
  cbn [app]. destruct (l1 ++ l2) eqn:E.
  - apply app_eq_nil in E as [_ E]. contradiction.
  - rewrite <- E in *. cbn [last]. rewrite E. rewrite <- E. exact IH.
Qed.

Lemma lower_char_dot (x : char) : N.eqb (lower_char x) DOT = N.eqb x DOT.
Proof.
  unfold lower_char, DOT.
  destruct (N.leb_spec 65 x); destruct (N.leb_spec x 90); cbn [andb];
    try reflexivity.
  transitivity false; [apply N.eqb_neq; lia|symmetry; apply N.eqb_neq; lia].
Qed.

Lemma split_lower (s : str) :
  split DOT (lower s) = map lower (split DOT s).
Proof.
  induction s as [|x s IH]; [reflexivity|].
  cbn [lower map split]. rewrite lower_char_dot.
  destruct (N.eqb x DOT).
  - change (map lower_char s) with (lower s). now rewrite IH.
  - change (map lower_char s) with (lower s). rewrite IH.
    destruct (split DOT s); reflexivity.
Qed.

Lemma last_map_lower (l : list str) :
  last (map lower l) [] = lower (last l []).
Proof.
  induction l as [|x l IH]; [reflexivity|].
  destruct l as [|y l]; [reflexivity|]. exact IH.
Qed.

Lemma get_file_language_lower (filename : str) :
  get_file_language filename
  = dict_get LANGUAGE_MAP (last (split DOT (lower filename)) []) (lit "text").
Proof.
  unfold get_file_language. now rewrite split_lower, last_map_lower.
Qed.

Lemma get_file_language_after_dot (stem rest : str) :
  get_file_language (stem ++ DOT :: rest) = get_file_language rest.
Proof.
  unfold get_file_language.
  rewrite split_app_sep, last_app_right by apply split_not_nil.
  reflexivity.
Qed.

(** X19: the language depends only on what follows the last dot of the
    name: everything up to and including a dot can be dropped. *)
Theorem get_file_language_suffix (stem rest : str) :
  get_file_language (stem ++ DOT :: rest) = get_file_language rest.
Proof. apply get_file_language_after_dot. Qed.

(** X20: two names that differ in the case of their letters only have
    the same language. *)
Theorem get_file_language_ignores_case (name1 name2 : str) :
  lower name1 = lower name2 ->
  get_file_language name1 = get_file_language name2.
Proof.
  intros H. now rewrite !get_file_language_lower, H.
Qed.

Lemma get_file_language_ignores_case_witness :
  lower (lit "Main.PY") = lower (lit "main.py")
  /\ get_file_language (lit "Main.PY") = get_file_language (lit "main.py").
Proof.
  split; [reflexivity|].
  apply (@get_file_language_ignores_case (lit "Main.PY") (lit "main.py")).
  reflexivity.
Defined.

(** X21: a name that ends in a dot and an extension of the table, in
    any case, gets the language the table gives for that extension. *)
Theorem get_file_language_table (stem ext k v : str) :
  In (k, v) LANGUAGE_MAP ->
  lower ext = k ->
  get_file_language (stem ++ DOT :: ext) = v.
Proof.
  intros Hin Hext.
  rewrite get_file_language_after_dot, get_file_language_lower, Hext.
  unfold LANGUAGE_MAP in Hin. simpl in Hin.
  repeat (destruct Hin as [Hin|Hin];
          [injection Hin as <- <-; reflexivity|]).
  contradiction.
Qed.

Lemma get_file_language_table_witness :
  In (lit "sh", lit "bash") LANGUAGE_MAP
  /\ lower (lit "SH") = lit "sh"
  /\ get_file_language (lit "run" ++ DOT :: lit "SH") = lit "bash".
Proof.
  split; [do 11 right; left; reflexivity|]. split; [reflexivity|].
  apply (@get_file_language_table (lit "run") (lit "SH") (lit "sh")
           (lit "bash")).
  - do 11 right. left. reflexivity.
  - reflexivity.
Defined.

(** ** [write_markdown] *)

Lemma write_markdown_plain (wa : write_args) (files : list source_file)
    (answers : list str) :
  wa_interactive wa = false ->
  write_markdown wa files answers
  = (List.concat (map (write_block wa) files), true).
Proof.
  intros Hplain. induction files as [|f rest IH]; [reflexivity|].
  cbn [write_markdown map List.concat]. now rewrite Hplain, IH.
Qed.

(** X22: without the interactive mode the text written is the blocks of
    the files one after the other, in the order of the list, so the text
    for two lists in a row is the text for the first followed by the text
    for the second. *)
Theorem write_markdown_appends (wa : write_args)
    (files1 files2 : list source_file) (answers : list str) :
  wa_interactive wa = false ->
  write_markdown wa (files1 ++ files2) answers
  = (fst (write_markdown wa files1 answers)
     ++ fst (write_markdown wa files2 answers), true).
Proof.
  intros Hplain. rewrite !write_markdown_plain by assumption.
  cbn [fst]. now rewrite map_app, concat_app.
Qed.

Lemma write_markdown_appends_witness :
  wa_interactive {| wa_interactive := false; wa_checksum := true |} = false
  /\ write_markdown {| wa_interactive := false; wa_checksum := true |}
       ([sample_source "a.py" (RLine (lit "x = 1") REof)]
        ++ [sample_source "b.bin" RDecodeError]) []
     = (fst (write_markdown {| wa_interactive := false; wa_checksum := true |}
               [sample_source "a.py" (RLine (lit "x = 1") REof)] [])
        ++ fst (write_markdown
                  {| wa_interactive := false; wa_checksum := true |}
                  [sample_source "b.bin" RDecodeError] []), true).
Proof.
  split; [reflexivity|].
  apply (@write_markdown_appends
           {| wa_interactive := false; wa_checksum := true |}
           [sample_source "a.py" (RLine (lit "x = 1") REof)]
           [sample_source "b.bin" RDecodeError] []).
  reflexivity.
Defined.

Lemma write_markdown_confirmed_text (wa : write_args)
    (files : list source_file) (answers : list str) :
  wa_interactive wa = true ->
  Forall says_yes answers ->
  (List.length files <= List.length answers)%nat ->
  write_markdown wa files answers
  = (List.concat (map (write_block wa) files), true).
Proof.
  intros Hint Hyes. revert files.
  induction Hyes as [|line rest Hline Hrest IH]; intros files Hlen.
  - destruct files; [reflexivity|simpl in Hlen; lia].
  - destruct files as [|f files]; [reflexivity|].
    cbn [write_markdown map List.concat ask]. rewrite Hint.
    assert (IHf : write_markdown wa files rest
                  = (List.concat (map (write_block wa) files), true)).
    { apply IH. simpl in Hlen. lia. }
    destruct Hline as [E|E]; rewrite E; cbn [str_eqb orb]; simpl;
      now rewrite IHf.
Qed.

(** X23: when [-o] names a file that can be opened and the mode is
    interactive, and every line typed is a yes (empty or [y], in any
    case, with any white space around) with one line for each file, the
    file gets the blocks of all the files in order: the content it gets
    without the interactive mode. *)
Theorem write_markdown_all_confirmed (name : str) (wa : write_args)
    (files : list source_file) (answers : list str) :
  wa_interactive wa = true ->
  Forall says_yes answers ->
  (List.length files <= List.length answers)%nat ->
  file_written (OutputFile name true) wa files answers
  = Some (name, List.concat (map (write_block wa) files)).
Proof.
  intros Hint Hyes Hlen. unfold file_written.
  now rewrite (write_markdown_confirmed_text wa files Hint Hyes Hlen).
Qed.

Lemma write_markdown_all_confirmed_witness :
  wa_interactive {| wa_interactive := true; wa_checksum := false |} = true
  /\ Forall says_yes [lit " Y "; lit ""]
  /\ (List.length [sample_source "a.py" REof; sample_source "b.md" REof]
      <= List.length [lit " Y "; lit ""])%nat
  /\ file_written (OutputFile (lit "out.md") true)
       {| wa_interactive := true; wa_checksum := false |}
       [sample_source "a.py" REof; sample_source "b.md" REof]
       [lit " Y "; lit ""]
     = Some (lit "out.md",
             List.concat
               (map (write_block
                       {| wa_interactive := true; wa_checksum := false |})
                    [sample_source "a.py" REof; sample_source "b.md" REof])).
Proof.
  assert (Hyes : Forall says_yes [lit " Y "; lit ""]).
  { constructor; [right; reflexivity|].
    constructor; [left; reflexivity|]. constructor. }
  split; [reflexivity|]. split; [exact Hyes|]. split; [simpl; lia|].
  apply (@write_markdown_all_confirmed (lit "out.md")
           {| wa_interactive := true; wa_checksum := false |}
           [sample_source "a.py" REof; sample_source "b.md" REof]
           [lit " Y "; lit ""]).
  - reflexivity.
  - exact Hyes.
  - simpl. lia.
Defined.

Lemma write_markdown_declined_text (wa : write_args)
    (files : list source_file) (answers : list str) :
  wa_interactive wa = true ->
  Forall says_no answers ->
  (List.length files <= List.length answers)%nat ->
  write_markdown wa files answers = ([], true).
Proof.
  intros Hint Hno. revert files.
  induction Hno as [|line rest Hline Hrest IH]; intros files Hlen.
  - destruct files; [reflexivity|simpl in Hlen; lia].
  - destruct files as [|f files]; [reflexivity|].
    cbn [write_markdown ask]. rewrite Hint.
    unfold says_no in Hline. rewrite Hline. simpl.
    apply IH. simpl in Hlen. lia.
Qed.

(** X24: when [-o] names a file that can be opened and the mode is
    interactive, and every line typed is [n] (in any case, with any white
    space around) with one line for each file, the file is left empty. *)
Theorem write_markdown_all_declined (name : str) (wa : write_args)
    (files : list source_file) (answers : list str) :
  wa_interactive wa = true ->
  Forall says_no answers ->
  (List.length files <= List.length answers)%nat ->
  file_written (OutputFile name true) wa files answers = Some (name, []).
Proof.
  intros Hint Hno Hlen. unfold file_written.
  now rewrite (write_markdown_declined_text wa files Hint Hno Hlen).
Qed.

Lemma write_markdown_all_declined_witness :
  wa_interactive {| wa_interactive := true; wa_checksum := false |} = true
  /\ Forall says_no [lit "N"; lit " n"]
  /\ (List.length [sample_source "a.py" REof; sample_source "b.md" REof]
      <= List.length [lit "N"; lit " n"])%nat
  /\ file_written (OutputFile (lit "out.md") true)
       {| wa_interactive := true; wa_checksum := false |}
       [sample_source "a.py" REof; sample_source "b.md" REof]
       [lit "N"; lit " n"]
     = Some (lit "out.md", []).
Proof.
  assert (Hno : Forall says_no [lit "N"; lit " n"]).
  { constructor; [reflexivity|]. constructor; [reflexivity|]. constructor. }
  split; [reflexivity|]. split; [exact Hno|]. split; [simpl; lia|].
  apply (@write_markdown_all_declined (lit "out.md")
           {| wa_interactive := true; wa_checksum := false |}
           [sample_source "a.py" REof; sample_source "b.md" REof]
           [lit "N"; lit " n"]).
  - reflexivity.
  - exact Hno.
  - simpl. lia.
Defined.

(** ** The theorems on the output, on sample trees *)

Lemma process_directory_output_witness :
  process_directory pinyin_excerpt plain_args small_tree
  = Ok [[lit "sub"; lit "b.txt"]; [lit "a.txt"]]
  /\ ((exists f, selected plain_args (all_patterns plain_args small_tree) []
                   (w_root small_tree) [lit "sub"; lit "b.txt"] f)
      /\ (a_recursive plain_args = false ->
          in_root [lit "sub"; lit "b.txt"] = true)).
Proof.
  split; [reflexivity|].
  apply (proj1 (@process_directory_output pinyin_excerpt plain_args
                  small_tree [[lit "sub"; lit "b.txt"]; [lit "a.txt"]]
                  [lit "sub"; lit "b.txt"] eq_refl)).
  left. reflexivity.
Defined.

Lemma process_directory_skips_hidden_witness :
  a_include_invisible plain_args = false
  /\ process_directory pinyin_excerpt plain_args hidden_tree
     = Ok [[lit "src"; lit "main.py"]]
  /\ Forall (fun name => startswith [DOT] name = false)
            [lit "src"; lit "main.py"].
Proof.
  split; [reflexivity|]. split; [reflexivity|].
  apply (@process_directory_skips_hidden pinyin_excerpt plain_args
           hidden_tree [[lit "src"; lit "main.py"]]
           [lit "src"; lit "main.py"]).
  - reflexivity.
  - reflexivity.
  - left. reflexivity.
Defined.

Lemma process_directory_depth_bound_witness :
  a_max_depth slash_root_args = Some 1%Z
  /\ process_directory pinyin_excerpt slash_root_args small_tree
     = Ok [[lit "sub"; lit "b.txt"]; [lit "a.txt"]]
  /\ (Z.of_nat (List.length [lit "sub"; lit "b.txt"])
      <= 1 + (if a_directory_is_root slash_root_args then 1 else 0))%Z.
Proof.
  split; [reflexivity|]. split; [reflexivity|].
  apply (@process_directory_depth_bound pinyin_excerpt slash_root_args
           small_tree 1 [[lit "sub"; lit "b.txt"]; [lit "a.txt"]]
           [lit "sub"; lit "b.txt"]).
  - reflexivity.
  - reflexivity.
  - left. reflexivity.
Defined.

Lemma process_directory_non_recursive_witness :
  a_recursive (with_recursive false plain_args) = false
  /\ process_directory pinyin_excerpt (with_recursive false plain_args)
       small_tree
     = Ok [[lit "a.txt"]]
  /\ exists name, [lit "a.txt"] = [name].
Proof.
  split; [reflexivity|]. split; [reflexivity|].
  apply (@process_directory_non_recursive pinyin_excerpt
           (with_recursive false plain_args) small_tree
           [[lit "a.txt"]] [lit "a.txt"]).
  - reflexivity.
  - reflexivity.
  - left. reflexivity.
Defined.

Lemma process_directory_lists_text_only_witness :
  process_directory pinyin_excerpt plain_args hidden_tree
  = Ok [[lit "src"; lit "main.py"]]
  /\ exists f,
       selected plain_args (all_patterns plain_args hidden_tree) []
         (w_root hidden_tree) [lit "src"; lit "main.py"] f
       /\ (startswith (lit "text/") (f_mime f) = true
           \/ f_mime f = lit "application/json"
           \/ f_mime f = lit "application/xml").
Proof.
  split; [reflexivity|].
  apply (@process_directory_lists_text_only pinyin_excerpt plain_args
           hidden_tree [[lit "src"; lit "main.py"]]
           [lit "src"; lit "main.py"]).
  - reflexivity.
  - left. reflexivity.
Defined.

Lemma process_directory_extension_filter_witness :
  process_directory pinyin_excerpt (with_type [lit ".TXT"] plain_args)
    project_tree
  = Ok [[lit "sub"; lit "foo.txt"]; [lit "foo.txt"]]
  /\ exists t,
       In t (a_type (with_type [lit ".TXT"] plain_args))
       /\ splitext_ext (last [lit "foo.txt"] []) <> []
       /\ tl (lower (splitext_ext (last [lit "foo.txt"] [])))
          = lstrip DOT (lower t).
Proof.
  split; [reflexivity|].
  apply (@process_directory_extension_filter pinyin_excerpt
           (with_type [lit ".TXT"] plain_args) project_tree
           [[lit "sub"; lit "foo.txt"]; [lit "foo.txt"]] [lit "foo.txt"]).
  - discriminate.
  - reflexivity.
  - right. left. reflexivity.
Defined.

Lemma process_directory_more_rules_witness :
  incl [lit "*.o"] [lit "*.o"; lit "sub/"]
  /\ process_directory pinyin_excerpt
       (with_exclude [lit "*.o"] plain_args) project_tree
     = Ok [[lit "sub"; lit "foo.txt"]; [lit "Makefile"]; [lit "foo.txt"]]
  /\ process_directory pinyin_excerpt
       (with_exclude [lit "*.o"; lit "sub/"] plain_args) project_tree
     = Ok [[lit "Makefile"]; [lit "foo.txt"]]
  /\ incl [[lit "Makefile"]; [lit "foo.txt"]]
          [[lit "sub"; lit "foo.txt"]; [lit "Makefile"]; [lit "foo.txt"]].
Proof.
  assert (Hincl : incl [lit "*.o"] [lit "*.o"; lit "sub/"]).
  { intros x [<-|[]]. left. reflexivity. }
  split; [exact Hincl|]. split; [reflexivity|]. split; [reflexivity|].
  apply (@process_directory_more_rules_fewer_files pinyin_excerpt plain_args
           project_tree [lit "*.o"] [lit "*.o"; lit "sub/"]).
  - exact Hincl.
  - reflexivity.
  - reflexivity.
Defined.

(** ** Symbolic links and files of the root *)

Lemma selected_not_link (a : args) (patterns : list str) (dirpath : path)
    (entries : list entry) (p : path) (f : file_info) :
  a_follow_symlinks a = false ->
  selected a patterns dirpath entries p f ->
  f_islink f = false.
Proof.
  intros Hfollow. induction 1 as [d es f Hd Hin Hk Ha|]; [|assumption].
  unfold kept in Hk. rewrite Hfollow in Hk.
  apply andb_true_iff in Hk as [_ Hk]. simpl in Hk.
  now apply negb_true_iff in Hk.
Qed.

(** X25: unless symbolic links are followed, no file of the output is a
    symbolic link. *)
Theorem process_directory_skips_links
    (lazy_pinyin : str -> result (list str)) (a : args) (w : world)
    (files : list path) (p : path) :
  a_follow_symlinks a = false ->
  process_directory lazy_pinyin a w = Ok files ->
  In p files ->
  exists f,
    selected a (all_patterns a w) [] (w_root w) p f /\ f_islink f = false.
Proof.
  intros Hfollow H Hin.
  apply (process_directory_in _ _ _ p H) in Hin as [(f & Hsel) _].
  exists f. split; [assumption|].
  now apply selected_not_link in Hsel.
Qed.

Lemma process_directory_skips_links_witness :
  a_follow_symlinks plain_args = false
  /\ process_directory pinyin_excerpt plain_args link_tree
     = Ok [[lit "b.txt"]]
  /\ exists f,
       selected plain_args (all_patterns plain_args link_tree) []
         (w_root link_tree) [lit "b.txt"] f
       /\ f_islink f = false.
Proof.
  split; [reflexivity|]. split; [reflexivity|].
  apply (@process_directory_skips_links pinyin_excerpt plain_args link_tree
           [[lit "b.txt"]] [lit "b.txt"]).
  - reflexivity.
  - reflexivity.
  - left. reflexivity.
Defined.

(** X26: a file of the root that the hidden-name and link handling keeps
    and the filter chain accepts is in the output, recursive or not, as
    long as the depth limit, if any, is above 0. *)
Theorem process_directory_lists_root_file
    (lazy_pinyin : str -> result (list str)) (a : args) (w : world)
    (f : file_info) :
  In (EFile f) (w_root w) ->
  kept a (f_name f) (f_islink f) = true ->
  accept a (all_patterns a w) [] f = Ok true ->
  depth_reached a [] = false ->
  exists files,
    process_directory lazy_pinyin a w = Ok files /\ In [f_name f] files.
Proof.
  intros Hin Hkept Hacc Hdepth.
  destruct (process_directory_total lazy_pinyin a w) as [files H].
  exists files. split; [assumption|].
  apply (process_directory_in _ _ _ [f_name f] H). split.
  - exists f. now apply (selected_here a (all_patterns a w) [] (w_root w) f).
  - reflexivity.
Qed.

Lemma process_directory_lists_root_file_witness :
  In (EFile a_txt) (w_root small_tree)
  /\ kept (with_recursive false plain_args) (f_name a_txt) (f_islink a_txt)
     = true
  /\ exists files,
       process_directory pinyin_excerpt (with_recursive false plain_args)
         small_tree = Ok files
       /\ In [f_name a_txt] files.
Proof.
  split; [left; reflexivity|]. split; [reflexivity|].
  apply (@process_directory_lists_root_file pinyin_excerpt
           (with_recursive false plain_args) small_tree a_txt).
  - left. reflexivity.
  - reflexivity.
  - reflexivity.
  - reflexivity.
Defined.

(** ** The content scan *)

(** X27: the content filter keeps a file exactly when some line matches
    and every line before it was read and searched without a match and
    without an error; what follows the first match, a read error
    included, is not looked at. *)
Theorem grep_first_match (search : str -> option bool) (fh : lines) :
  grep search fh = true <->
  exists before l rest,
    fh = read_then before (Line l rest)
    /\ Forall (fun x => search x = Some false) before
    /\ search l = Some true.
Proof.
  induction fh as [|l rest IH|]; cbn [grep].
  - split; [discriminate|].
    intros ([|x before] & l & rest & E & _); discriminate E.
  - destruct (search l) as [[|]|] eqn:Hl.
    + split; [|reflexivity]. intros _.
      exists [], l, rest. repeat split; [constructor|assumption].
    + rewrite IH. split.
      * intros (before & m & tail & -> & Hall & Hm).
        exists (l :: before), m, tail. repeat split; try assumption.
        now constructor.
      * intros ([|x before] & m & tail & E & Hall & Hm);
          injection E as -> ->; [congruence|].
        exists before, m, tail. repeat split; try assumption.
        now inversion Hall.
    + split; [discriminate|].
      intros ([|x before] & m & tail & E & Hall & Hm);
        injection E as -> ->; [congruence|].
      inversion Hall; congruence.
  - split; [discriminate|].
    intros ([|x before] & l & rest & E & _); discriminate E.
Qed.

(** ** The sort key of a path *)

Lemma split_absent (c : char) (s : str) :
  contains c s = false -> split c s = [s].
Proof.
  induction s as [|x s IH]; [reflexivity|].
  rewrite contains_cons. intros H. apply orb_false_iff in H as [Hx Hs].
  cbn [split]. rewrite N.eqb_sym, Hx. now rewrite (IH Hs).
Qed.

Lemma split_rel_path (p : path) :
  p <> [] ->
  Forall (fun name => contains SLASH name = false) p ->
  split SLASH (rel_path p) = p.
Proof.
  intros Hp Hall. unfold rel_path.
  induction Hall as [|x rest Hx Hrest IH]; [contradiction|].
  destruct rest as [|y rest].
  - now apply split_absent.
  - change (join [SLASH] (x :: y :: rest))
      with (x ++ SLASH :: join [SLASH] (y :: rest)).
    rewrite split_app_sep, (split_absent _ _ Hx), IH by discriminate.
    reflexivity.
Qed.

(** X28: for a path whose names hold no separator, the key is the negated
    number of directories above the file followed by the converted names
    of the path, one for each segment. *)
Theorem get_sort_key_of_segments
    (lazy_pinyin : str -> result (list str)) (p : path) :
  p <> [] ->
  Forall (fun name => contains SLASH name = false) p ->
  get_sort_key lazy_pinyin p
  = ((- (Z.of_nat (List.length p) - 1))%Z, map (trans lazy_pinyin) p).
Proof.
  intros Hp Hall. now rewrite get_sort_key_parts, split_rel_path.
Qed.

Lemma get_sort_key_of_segments_witness :
  Forall (fun name => contains SLASH name = false) [lit "sub"; lit "b.txt"]
  /\ get_sort_key pinyin_excerpt [lit "sub"; lit "b.txt"]
     = ((- (Z.of_nat (List.length [lit "sub"; lit "b.txt"]) - 1))%Z,
        map (trans pinyin_excerpt) [lit "sub"; lit "b.txt"]).
Proof.
  assert (H : Forall (fun name => contains SLASH name = false)
                     [lit "sub"; lit "b.txt"]).
  { constructor; [reflexivity|]. constructor; [reflexivity|]. constructor. }
  split; [exact H|].
  apply (@get_sort_key_of_segments pinyin_excerpt [lit "sub"; lit "b.txt"]).
  - discriminate.
  - exact H.
Defined.

(** ** The modification time filter on a date that parses *)

Ltac decide_time_filter C :=
  split;
  [ intros Hres; try discriminate Hres;
    repeat split; intros E; try discriminate E;
    rewrite ?C; first [reflexivity|discriminate]
  | intros (H1 & H2 & H3 & H4 & H5); try reflexivity; exfalso;
    first [ specialize (H1 eq_refl); congruence
          | specialize (H2 eq_refl); congruence
          | specialize (H3 eq_refl); congruence
          | specialize (H4 eq_refl); congruence
          | specialize (H5 eq_refl); congruence ] ].

(** X29: when operator and date parse, a file passes the modification
    time filter exactly when its time stands in the stated relation to
    midnight of the date; [==] alone compares the calendar dates only, and
    an operator run that is none of the five states no relation. *)
Theorem time_filter_decision (modified_time_arg op date_str : str)
    (target_time file_time : datetime) :
  parse_operator_value modified_time_arg = Ok (op, date_str) ->
  strptime date_str = Ok target_time ->
  (time_filter modified_time_arg file_time = Ok true <->
   (op = lit ">" -> datetime_cmp file_time target_time = Gt)
   /\ (op = lit "<" -> datetime_cmp file_time target_time = Lt)
   /\ (op = lit ">=" -> datetime_cmp file_time target_time <> Lt)
   /\ (op = lit "<=" -> datetime_cmp file_time target_time <> Gt)
   /\ (op = lit "==" -> date_cmp file_time target_time = Eq)).
Proof.
  intros Hparse Hdate. unfold time_filter. rewrite Hparse. simpl bind.
  rewrite Hdate. simpl bind. cbv beta iota. unfold time_compare. cbv zeta.
  destruct (str_eqb op (lit ">")) eqn:E1.
  { apply str_eqb_eq in E1. subst op.
    destruct (datetime_cmp file_time target_time) eqn:C; simpl;
      decide_time_filter C. }
  destruct (str_eqb op (lit "<")) eqn:E2.
  { apply str_eqb_eq in E2. subst op.
    destruct (datetime_cmp file_time target_time) eqn:C; simpl;
      decide_time_filter C. }
  destruct (str_eqb op (lit ">=")) eqn:E3.
  { apply str_eqb_eq in E3. subst op.
    destruct (datetime_cmp file_time target_time) eqn:C; simpl;
      decide_time_filter C. }
  destruct (str_eqb op (lit "<=")) eqn:E4.
  { apply str_eqb_eq in E4. subst op.
    destruct (datetime_cmp file_time target_time) eqn:C; simpl;
      decide_time_filter C. }
  destruct (str_eqb op (lit "==")) eqn:E5.
  { apply str_eqb_eq in E5. subst op.
    destruct (date_cmp file_time target_time) eqn:C; simpl;
      decide_time_filter C. }
  simpl. split; [|reflexivity]. intros _.
  repeat split; intros ->; rewrite str_eqb_refl in *; discriminate.
Qed.

Lemma time_filter_decision_witness :
  parse_operator_value (lit "==2024-01-15") = Ok (lit "==", lit "2024-01-15")
  /\ strptime (lit "2024-01-15")
     = Ok {| dt_year := 2024; dt_month := 1; dt_day := 15; dt_micro := 0 |}
  /\ time_filter (lit "==2024-01-15") noon = Ok true.
Proof.
  split; [reflexivity|]. split; [reflexivity|].
  apply (proj2 (@time_filter_decision (lit "==2024-01-15") (lit "==")
                  (lit "2024-01-15")
                  {| dt_year := 2024; dt_month := 1; dt_day := 15;
                     dt_micro := 0 |} noon eq_refl eq_refl)).
  repeat split; intros E; first [discriminate E|reflexivity].
Defined.

(** ** The directory rule [build/] *)





